(** * oneterminal: the yaml configuration layer

    A shallow embedding of [internal/yaml/yaml.go].  The file finds the
    user's configuration directory, parses the configuration files, checks
    the command names, and registers one cobra command per configuration;
    running such a command hands every configured shell command, with its
    functional options, to the orchestrator of [pkg/monitor].

    The first part holds the definitions: the Go library functions that
    yaml.go calls ([os], [path/filepath], [io/ioutil]) over a small model of
    the host, what yaml.go uses of [pkg/monitor], and yaml.go itself.  The
    source of [pkg/monitor] is not at hand; what is said about its behaviour
    is modelled from the specification, and every such definition says so.
    The second part holds the properties. *)

From Stdlib Require Import Ascii String.
From stdpp Require Import base option list sorting gmap strings.


(** ** Go values shared by the packages *)

(** A Go [error] value, by its message; [errors.Wrap] puts the new message
    and a colon before the old one. *)
Definition error := string.

Definition Wrap (err : error) (message : string) : error :=
  message +:+ ": " +:+ err.

(** A [map[string]bool] read with the index expression [m[k]]: a key that is
    absent reads as the zero value [false]. *)
Definition index (m : gmap string bool) (k : string) : bool :=
  default false (m !! k).

(** A line feed and a horizontal tab, as one-byte strings. *)
Definition LF : string := String (ascii_of_nat 10) "".
Definition TAB : string := String (ascii_of_nat 9) "".

(** The byte 0x22, which [%q] writes on both sides of a string. *)
Definition dquote : ascii := ascii_of_nat 34.

(** [fmt.Sprintf] with the verb [%q] on a string of plain letters: the string
    between two double quotes.  (The general verb escapes quotes, backslashes
    and bytes that do not print; the only call of this file passes a name that
    was just found in [reservedNames], all of whose keys are lower-case
    letters.) *)
Definition Sprintf_q (s : string) : string :=
  String dquote (s +:+ String dquote "").

(** ** The host: environment, working directory and file tree *)

(** What a path names: a directory (with whether the process may create
    entries in it) or a regular file with its bytes. *)
Inductive Node :=
  | Dir (writable : bool)
  | File (content : string).

(** The part of the operating system that this package reads and changes:
    the environment variables, the working directory and the file tree.  A
    place in the tree is the list of element names from the root. *)
Record Host := {
  environ : gmap string string;
  cwd : list string;
  files : gmap (list string) Node;
}.

(** ** path/filepath (Unix) *)

Module filepath.

(** The elements of a path between its separators, empty ones included. *)
Fixpoint splitElems (path : string) : list string :=
  match path with
  | "" => [""]
  | String c rest =>
      if decide (c = "/"%char) then "" :: splitElems rest
      else match splitElems rest with
           | x :: xs => String c x :: xs
           | [] => [String c ""]
           end
  end.

(** The elements written with one separator between neighbours. *)
Fixpoint joinElems (elems : list string) : string :=
  match elems with
  | [] => ""
  | [e] => e
  | e :: rest => e +:+ "/" +:+ joinElems rest
  end.

Definition rooted (path : string) : bool :=
  match path with
  | String c _ => bool_decide (c = "/"%char)
  | "" => false
  end.

(** One element against the elements kept so far (the last kept first):
    an empty element and [.] are dropped; [..] removes the element before it,
    is dropped at the root, and is kept where a relative path has nothing
    left to remove. *)
Definition cleanStep (isRooted : bool) (kept : list string) (elem : string)
    : list string :=
  if decide (elem = "" ∨ elem = ".") then kept
  else if decide (elem = "..") then
    match kept with
    | top :: kept' => if decide (top = "..") then ".." :: kept else kept'
    | [] => if isRooted then [] else [".."]
    end
  else elem :: kept.

Definition cleanElems (isRooted : bool) (elems : list string) : list string :=
  rev (foldl (cleanStep isRooted) [] elems).

(** [filepath.Clean]: the shortest path that names the same place by
    lexical processing alone. *)
Definition Clean (path : string) : string :=
  if decide (path = "") then "."
  else
    let out := joinElems (cleanElems (rooted path) (splitElems path)) in
    if rooted path then "/" +:+ out
    else if decide (out = "") then "." else out.

(** [filepath.Join]: the elements from the first one that is not empty,
    joined with separators and cleaned; the empty string when all are
    empty. *)
Fixpoint Join (elem : list string) : string :=
  match elem with
  | [] => ""
  | e :: rest =>
      if decide (e = "") then Join rest else Clean (joinElems elem)
  end.

End filepath.

(** ** os (Unix) *)

Module os.

(** *** Expansion of environment variables *)

Definition isShellSpecialVar (c : ascii) : bool :=
  match c with
  | "*" | "#" | "$" | "@" | "!" | "?" | "-"
  | "0" | "1" | "2" | "3" | "4" | "5" | "6" | "7" | "8" | "9" => true
  | _ => false
  end%char.

Definition between (lo hi c : ascii) : bool :=
  (nat_of_ascii lo <=? nat_of_ascii c)%nat
  && (nat_of_ascii c <=? nat_of_ascii hi)%nat.

Definition isAlphaNum (c : ascii) : bool :=
  bool_decide (c = "_"%char) || between "0" "9" c || between "a" "z" c
  || between "A" "Z" c.

(** The slices [s[:n]] and [s[n:]] (all of [s], and nothing, when [n] is
    past the end). *)
Fixpoint takeBytes (n : nat) (s : string) : string :=
  match n, s with
  | S n, String c s' => String c (takeBytes n s')
  | _, _ => ""
  end.

Fixpoint dropBytes (n : nat) (s : string) : string :=
  match n, s with
  | S n, String _ s' => dropBytes n s'
  | _, _ => s
  end.

(** The index of the first byte [c] of [s]. *)
Fixpoint IndexByte (s : string) (c : ascii) : option nat :=
  match s with
  | "" => None
  | String c' s' => if decide (c' = c) then Some 0 else S <$> IndexByte s' c
  end.

(** How many bytes at the start of [s] are letters, digits or underscores. *)
Fixpoint alphaNumPrefix (s : string) : nat :=
  match s with
  | String c s' => if isAlphaNum c then S (alphaNumPrefix s') else 0
  | "" => 0
  end.

(** The scan for the closing brace in [getShellName]; [rest] is what follows
    the opening brace. *)
Definition bracedName (rest : string) : string * nat :=
  match IndexByte rest "}" with
  | Some 0 => ("", 2)
  | Some k => (takeBytes k rest, k + 2)
  | None => ("", 1)
  end.

(** [getShellName]: the name that starts [s] (the text after a dollar sign)
    and the number of bytes it takes. *)
Definition getShellName (s : string) : string * nat :=
  match s with
  | "" => ("", 0)
  | String c0 rest =>
      if decide (c0 = "{"%char) then
        match rest with
        | String c1 (String c2 _) =>
            if isShellSpecialVar c1 && bool_decide (c2 = "}"%char)
            then (String c1 "", 3)
            else bracedName rest
        | _ => bracedName rest
        end
      else if isShellSpecialVar c0 then (String c0 "", 1)
      else let i := alphaNumPrefix s in (takeBytes i s, i)
  end.


(** The loop of [os.Expand] from one position on: a dollar sign that is not
    the last byte is replaced, with its name, by the name's value (an invalid
    name is eaten, and a dollar sign that no name follows is kept); every
    other byte is copied.  [fuel] bounds the number of rounds, and the length
    of [s] is enough. *)
Fixpoint expandLoop (fuel : nat) (mapping : string → string) (s : string)
    : string :=
  match fuel with
  | 0 => s
  | S fuel =>
      match s with
      | "" => ""
      | String c rest =>
          if bool_decide (c = "$"%char) && negb (bool_decide (rest = ""))
          then
            let '(name, w) := getShellName rest in
            let value :=
              if bool_decide (name = "") then
                if (0 <? w)%nat then "" else "$"
              else mapping name in
            value +:+ expandLoop fuel mapping (dropBytes w rest)
          else String c (expandLoop fuel mapping rest)
      end
  end.

Definition Expand (s : string) (mapping : string → string) : string :=
  expandLoop (String.length s) mapping s.

(** [os.Getenv]: the value of the variable, empty when it is not set. *)
Definition Getenv (h : Host) (key : string) : string :=
  default "" (environ h !! key).

Definition ExpandEnv (h : Host) (s : string) : string :=
  Expand s (Getenv h).




(** *** The home directory *)

(** [os.UserHomeDir] on Unix: the value of [HOME], an error when it is
    empty or not set. *)
Definition UserHomeDir (h : Host) : string + error :=
  let dir := Getenv h "HOME" in
  if decide (dir = "") then inr "$HOME is not defined" else inl dir.

(** *** Directories *)

(** The message of an [*os.PathError]. *)
Definition PathError (op path err : string) : error :=
  op +:+ " " +:+ path +:+ ": " +:+ err.

Definition ENOENT : string := "no such file or directory".
Definition EEXIST : string := "file exists".
Definition ENOTDIR : string := "not a directory".
Definition EACCES : string := "permission denied".

(** [os.ModePerm], octal 777. *)
Definition ModePerm : nat := 511.

(** The place a path names: its elements, after those of the working
    directory when it is relative, with [.] and [..] resolved. *)
Definition place (h : Host) (isRooted : bool) (elems : list string)
    : list string :=
  filepath.cleanElems true (if isRooted then elems else cwd h ++ elems).

(** The walk from [from] along [elems]: every place passed must be a
    directory; the node at the end, if there is one. *)
Fixpoint walk (fs : gmap (list string) Node) (from elems : list string)
    : option Node :=
  match elems with
  | [] => fs !! from
  | e :: elems' =>
      match fs !! from with
      | Some (Dir _) => walk fs (from ++ [e]) elems'
      | _ => None
      end
  end.

(** [os.Stat] of a place, [None] for its error. *)
Definition Stat (fs : gmap (list string) Node) (key : list string)
    : option Node :=
  walk fs [] key.

(** [os.Mkdir] at a place: the place must be free and its parent a directory
    that can be written; the new directory can be written when the mode has
    the owner's write bit. *)
Definition Mkdir (fs : gmap (list string) Node) (key : list string)
    (path : string) (perm : nat)
    : gmap (list string) Node * option error :=
  match Stat fs key with
  | Some _ => (fs, Some (PathError "mkdir" path EEXIST))
  | None =>
      match Stat fs (removelast key) with
      | Some (Dir true) => (<[key := Dir (Nat.testbit perm 7)]> fs, None)
      | Some (Dir false) => (fs, Some (PathError "mkdir" path EACCES))
      | Some (File _) => (fs, Some (PathError "mkdir" path ENOTDIR))
      | None => (fs, Some (PathError "mkdir" path ENOENT))
      end
  end.

(** The recursion of [os.MkdirAll] over the elements of the path, the last
    one first: nothing to do when the path is a directory already; otherwise
    the parent (when the path has one) is made first, then the directory
    itself, and an error of [Mkdir] is dropped when the directory is there
    after all. *)
Fixpoint mkdirAll (h : Host) (isRooted : bool) (relems : list string)
    (perm : nat) (fs : gmap (list string) Node)
    : gmap (list string) Node * option error :=
  let key := place h isRooted (rev relems) in
  let path :=
    (if isRooted then "/" else "") +:+ filepath.joinElems (rev relems) in
  match Stat fs key with
  | Some (Dir _) => (fs, None)
  | Some (File _) => (fs, Some (PathError "mkdir" path ENOTDIR))
  | None =>
      let '(fs, err) :=
        match relems with
        | _ :: (_ :: _) as parent => mkdirAll h isRooted parent perm fs
        | _ => (fs, None)
        end in
      match err with
      | Some err => (fs, Some err)
      | None =>
          let '(fs, err) := Mkdir fs key path perm in
          match err with
          | None => (fs, None)
          | Some err =>
              match Stat fs key with
              | Some (Dir _) => (fs, None)
              | _ => (fs, Some err)
              end
          end
      end
  end.

(** The elements of a path that [MkdirAll] steps over: the separators and
    the empty elements between them do not count. *)
Definition pathElems (path : string) : list string :=
  filter (λ e, e ≠ "") (filepath.splitElems path).

(** The place that a path names on a host. *)
Definition placeOf (h : Host) (path : string) : list string :=
  place h (filepath.rooted path) (pathElems path).

(** [os.Stat] finds a directory at the path. *)
Definition IsDir (h : Host) (path : string) : bool :=
  match Stat (files h) (placeOf h path) with
  | Some (Dir _) => true
  | _ => false
  end.

(** [os.MkdirAll]: the directory and every parent that is missing. *)
Definition MkdirAll (path : string) (perm : nat) (h : Host)
    : Host * option error :=
  let '(fs, err) :=
    mkdirAll h (filepath.rooted path) (rev (pathElems path)) perm (files h) in
  ({| environ := environ h; cwd := cwd h; files := fs |}, err).

End os.

(** ** io/ioutil *)

Module ioutil.

(** The names of the entries of the directory at place [dir]. *)
Definition entryNames (fs : gmap (list string) Node) (dir : list string)
    : list string :=
  omap (λ entry,
          let key := fst entry in
          if decide (key ≠ [] ∧ removelast key = dir)
          then Some (List.last key "") else None)
       (map_to_list fs).

(** [ioutil.ReadDir]: the names of the directory's entries, sorted by
    name; an error when the path is not a directory that can be opened. *)
Definition ReadDir (dirname : string) (h : Host) : list string + error :=
  match os.Stat (files h) (os.placeOf h dirname) with
  | Some (Dir _) =>
      inl (merge_sort String.le (entryNames (files h) (os.placeOf h dirname)))
  | Some (File _) => inr (os.PathError "readdirent" dirname os.ENOTDIR)
  | None => inr (os.PathError "open" dirname os.ENOENT)
  end.

(** [ioutil.ReadFile]: the bytes of a regular file. *)
Definition ReadFile (filename : string) (h : Host) : string + error :=
  match os.Stat (files h) (os.placeOf h filename) with
  | Some (File content) => inl content
  | Some (Dir _) => inr (os.PathError "read" filename "is a directory")
  | None => inr (os.PathError "open" filename os.ENOENT)
  end.

(** [ioutil.WriteFile]: the file is made, or emptied when it is there, and
    the data written.  A new file needs a parent directory that can be
    written; a path that names a directory cannot be opened for writing.
    (The tree keeps no mode for regular files: a file that is there can be
    written.) *)
Definition WriteFile (filename data : string) (perm : nat) (h : Host)
    : Host * option error :=
  let key := os.placeOf h filename in
  let written :=
    {| environ := environ h; cwd := cwd h;
       files := <[key := File data]> (files h) |} in
  match os.Stat (files h) key with
  | Some (File _) => (written, None)
  | Some (Dir _) => (h, Some (os.PathError "open" filename "is a directory"))
  | None =>
      match os.Stat (files h) (removelast key) with
      | Some (Dir true) => (written, None)
      | Some (Dir false) => (h, Some (os.PathError "open" filename os.EACCES))
      | Some (File _) => (h, Some (os.PathError "open" filename os.ENOTDIR))
      | None => (h, Some (os.PathError "open" filename os.ENOENT))
      end
  end.

End ioutil.

(** ** pkg/monitor *)

Module monitor.

(** The four functional options ([func(MonitoredCmd) MonitoredCmd]) that
    yaml.go appends to a command's option list, by name and argument. *)
Inductive CmdOption :=
  | PrefixStdout (name : string)
  | BashShell
  | SetCmdDir (dir : string)
  | SilenceOutput.

#[global] Instance CmdOption_eq_dec : EqDecision CmdOption.
Proof. solve_decision. Defined.

(** One call [NewMonitoredCmd(command, options...)] of yaml.go. *)
Record NewMonitoredCmdCall := {
  call_command : string;
  call_options : list CmdOption;
}.

(** Modelled from the spec: the Command Specification of section 3 (the
    source of pkg/monitor is not part of the repository's files here).  One
    record [{name, shellText, workingDir, useLoginShell, silence}]; the name
    may be empty and the working directory may be unset. *)
Record CommandSpec := {
  name : string;
  shellText : string;
  workingDir : option string;
  useLoginShell : bool;
  silence : bool;
}.

(** Modelled from the spec: what a functional option of pkg/monitor sets,
    after section 9, which reads the four options as the toggles for
    prefixing, shell choice, working directory and silencing of that
    record. *)
Definition applyOption (s : CommandSpec) (o : CmdOption) : CommandSpec :=
  match o with
  | PrefixStdout n =>
      {| name := n; shellText := shellText s; workingDir := workingDir s;
         useLoginShell := useLoginShell s; silence := silence s |}
  | BashShell =>
      {| name := name s; shellText := shellText s; workingDir := workingDir s;
         useLoginShell := true; silence := silence s |}
  | SetCmdDir d =>
      {| name := name s; shellText := shellText s; workingDir := Some d;
         useLoginShell := useLoginShell s; silence := silence s |}
  | SilenceOutput =>
      {| name := name s; shellText := shellText s; workingDir := workingDir s;
         useLoginShell := useLoginShell s; silence := true |}
  end.

(** Modelled from the spec: [NewMonitoredCmd] of pkg/monitor, the
    specification that a command text and its options stand for: no name, no
    directory, no login shell and no silencing until an option says so, the
    options applied in the order given. *)
Definition NewMonitoredCmd (command : string) (options : list CmdOption)
    : CommandSpec :=
  foldl applyOption
    {| name := ""; shellText := command; workingDir := None;
       useLoginShell := false; silence := false |}
    options.

(** Modelled from the spec: the states of a Monitored Command (section 3)
    and the error taxonomy of section 7. *)
Inductive ErrorKind := SpawnError | RuntimeExitError | SignalDeliveryError.

Inductive State :=
  | Pending
  | Running
  | Exited (code : nat)
  | Killed
  | Failed (err : ErrorKind).

(** Modelled from the spec: what [Start] asks the operating system to run
    (section 4.1): the shell text and the working directory with their
    environment variables expanded against the host's environment at that
    moment, as [os.ExpandEnv] does it (the comments that yaml.go writes into
    example.yml name that function), from the process's own directory when
    none is set, directly or through a login shell. *)
Record SpawnRequest := {
  req_text : string;
  req_dir : option string;
  req_loginShell : bool;
}.

Definition spawnRequest (h : Host) (s : CommandSpec) : SpawnRequest := {|
  req_text := os.ExpandEnv h (shellText s);
  req_dir := os.ExpandEnv h <$> workingDir s;
  req_loginShell := useLoginShell s;
|}.

(** Modelled from the spec: [Start] of a Monitored Command (section 4.1).
    From [Pending] the command becomes [Running] when the operating system
    launches the request and [Failed SpawnError] when it does not; [launch]
    is the operating system's answer.  The request issued is returned
    beside the new state. *)
Definition Start (h : Host) (launch : SpawnRequest → bool)
    (s : CommandSpec) (st : State) : State * option SpawnRequest :=
  match st with
  | Pending =>
      let req := spawnRequest h s in
      (if launch req then Running else Failed SpawnError, Some req)
  | _ => (st, None)
  end.

(** Modelled from the spec: the Output Multiplexer of section 4.2.  A write
    to the shared sink, with the command it comes from (its place in the
    orchestrator's list). *)
Record Write := {
  origin : nat;
  bytes : string;
}.

(** Modelled from the spec: the multiplexer's state, a line-assembly buffer
    per Monitored Command and the writes made to the sink so far. *)
Record Multiplexer := {
  buffers : gmap nat string;
  sink : list Write;
}.

(** The byte that ends a line. *)
Definition newline : ascii := ascii_of_nat 10.

(** Modelled from the spec: line assembly (section 4.2).  The bytes of a
    chunk are appended to the buffer; at each newline the buffer, newline
    included, is one complete line and the buffer starts again empty.  The
    result is the complete lines in order and the buffer left. *)
Fixpoint assemble (buffer chunk : string) : list string * string :=
  match chunk with
  | "" => ([], buffer)
  | String c rest =>
      if decide (c = newline) then
        let '(lines, buffer') := assemble "" rest in
        ((buffer +:+ String c "") :: lines, buffer')
      else assemble (buffer +:+ String c "") rest
  end.

(** Modelled from the spec: the prefix of a line, [[name]] and a space when
    the name is not empty, nothing when it is (section 4.2). *)
Definition linePrefix (name : string) : string :=
  if decide (name = "") then "" else "[" +:+ name +:+ "] ".

(** The buffer of command [i], empty until the command has sent bytes. *)
Definition bufferOf (m : Multiplexer) (i : nat) : string :=
  default "" (buffers m !! i).

(** Modelled from the spec: the multiplexer accepts a chunk of bytes from
    command [i] (section 4.2).  The bytes of a silenced command are drained
    and go nowhere; otherwise each line completed by the chunk is one write
    to the sink, after the command's prefix. *)
Definition accept (cmds : list CommandSpec) (i : nat) (chunk : string)
    (m : Multiplexer) : Multiplexer :=
  match cmds !! i with
  | None => m
  | Some s =>
      if silence s then m
      else
        let '(lines, buffer) := assemble (bufferOf m i) chunk in
        {| buffers := <[i := buffer]> (buffers m);
           sink := sink m
             ++ ((λ line, {| origin := i;
                             bytes := linePrefix (name s) +:+ line |})
                   <$> lines) |}
  end.

(** Modelled from the spec: on stream close the trailing partial line, if
    there is one, is flushed to the sink (section 4.2). *)
Definition close (cmds : list CommandSpec) (i : nat) (m : Multiplexer)
    : Multiplexer :=
  match cmds !! i with
  | None => m
  | Some s =>
      if silence s then m
      else if decide (bufferOf m i = "") then m
      else
        {| buffers := <[i := ""]> (buffers m);
           sink := sink m
             ++ [{| origin := i;
                    bytes := linePrefix (name s) +:+ bufferOf m i |}] |}
  end.

(** Modelled from the spec: what reaches the multiplexer during a run, in
    the order it arrives: chunks of bytes from the commands' streams, and the
    close of a command's stream. *)
Inductive Event :=
  | Chunk (i : nat) (chunk : string)
  | Close (i : nat).

(** Modelled from the spec: the multiplexer takes what arrives one event
    after the other, starting with empty buffers and an empty sink. *)
Definition step (cmds : list CommandSpec) (m : Multiplexer) (e : Event)
    : Multiplexer :=
  match e with
  | Chunk i chunk => accept cmds i chunk m
  | Close i => close cmds i m
  end.

Definition run (cmds : list CommandSpec) (events : list Event) : Multiplexer :=
  foldl (step cmds) {| buffers := ∅; sink := [] |} events.




End monitor.

(** ** The configuration types *)

(** [Command] is what will run in one terminal window or tab.  (Its fields
    live in a module of their own: [OneTerminalConfig] has a [Name] too.) *)
Module Command.
Record t := {
  Name : string;
  Command : string;
  CmdDir : string;
  Silence : bool;
}.
End Command.

(** [OneTerminalConfig]: all the fields of one yaml config. *)
Record OneTerminalConfig := {
  Name : string;
  Shell : string;
  Short : string;
  Long : string;
  Commands : list Command.t;
}.

Definition reservedNames : gmap string bool :=
  <["completion" := true]> (<["example" := true]> (<["help" := true]> ∅)).

(** ** The cobra command that is registered *)

Module cobra.

(** A [cobra.Command] as yaml.go builds it.  Its [Run] field is a closure
    over the loop's own copy of the configuration ([config := configPointer]);
    the closure is kept as the configuration it captured. *)
Record Command := {
  Use : string;
  Short : string;
  Long : string;
  Run : OneTerminalConfig;
}.

(** The root command, by the list of its sub-commands; [AddCommand] appends
    at the end. *)
Definition AddCommand (rootCmd : list Command) (c : Command) : list Command :=
  rootCmd ++ [c].

End cobra.

(** ** The body of the [Run] closure *)

(** The option list of one configured command, in the order of the four
    [if] statements. *)
Definition commandOptions (config : OneTerminalConfig) (cmd : Command.t)
    : list monitor.CmdOption :=
  let options := [] in
  let options :=
    if decide (Command.Name cmd ≠ "")
    then options ++ [monitor.PrefixStdout (Command.Name cmd)] else options in
  let options :=
    if decide (Shell config = "bash")
    then options ++ [monitor.BashShell] else options in
  let options :=
    if decide (Command.CmdDir cmd ≠ "")
    then options ++ [monitor.SetCmdDir (Command.CmdDir cmd)] else options in
  let options :=
    if Command.Silence cmd
    then options ++ [monitor.SilenceOutput] else options in
  options.

(** The calls of [NewMonitoredCmd] that one run of the closure makes, in
    order; each result is added to the orchestrator before [RunCommands]. *)
Definition runClosure (config : OneTerminalConfig)
    : list monitor.NewMonitoredCmdCall :=
  (λ cmd, {| monitor.call_command := Command.Command cmd;
             monitor.call_options := commandOptions config cmd |})
    <$> Commands config.

(** The Monitored Commands that one run of the closure adds to the
    orchestrator, in order. *)
Definition orchestratorCommands (config : OneTerminalConfig)
    : list monitor.CommandSpec :=
  (λ call, monitor.NewMonitoredCmd (monitor.call_command call)
                                   (monitor.call_options call))
    <$> runClosure config.

(** ** GetConfigDir *)

(** [GetConfigDir] returns the path to the config directory; the directory
    is made if it does not exist.  The result is Go's pair of a path and an
    error ([None] for [nil]), with the host as the call leaves it. *)
Definition GetConfigDir (h : Host) : (string * option error) * Host :=
  match os.UserHomeDir h with
  | inr err => (("", Some (Wrap err "finding home directory")), h)
  | inl homedir =>
      let oneTermConfigDir :=
        filepath.Join [homedir; ".config/oneterminal"] in
      match os.MkdirAll oneTermConfigDir os.ModePerm h with
      | (h', Some err) => (("", Some err), h')
      | (h', None) => ((oneTermConfigDir, None), h')
      end
  end.

(** ** ParseAndAddToRoot *)

(** How a call ends: it returns, or it panics with a message.  Either way the
    root command keeps the sub-commands added so far. *)
Inductive Outcome :=
  | Returned (rootCmd : list cobra.Command)
  | Panicked (message : string) (rootCmd : list cobra.Command).

Definition cobraCommand (config : OneTerminalConfig) : cobra.Command :=
  let cobraCommand :=
    {| cobra.Use := Name config; cobra.Short := Short config;
       cobra.Long := ""; cobra.Run := config |} in
  if decide (Long config ≠ "")
  then {| cobra.Use := cobra.Use cobraCommand;
          cobra.Short := cobra.Short cobraCommand;
          cobra.Long := Long config;
          cobra.Run := cobra.Run cobraCommand |}
  else cobraCommand.

(** The [for ... range cmdConfigs] loop, with the map [allNames] and the root
    command as its state. *)
Fixpoint registerConfigs (cmdConfigs : list OneTerminalConfig)
    (allNames : gmap string bool) (rootCmd : list cobra.Command) : Outcome :=
  match cmdConfigs with
  | [] => Returned rootCmd
  | config :: rest =>
      if index allNames (Name config) then
        Panicked ("Multiple commands have the same name " +:+ Name config)
                 rootCmd
      else
        let allNames := <[Name config := true]> allNames in
        if index reservedNames (Name config) then
          Panicked ("The command name " +:+ Sprintf_q (Name config)
                    +:+ " is reserved :(") rootCmd
        else
          registerConfigs rest allNames
            (cobra.AddCommand rootCmd (cobraCommand config))
  end.

Section ParseConfigs.
(** [yaml.Unmarshal] of gopkg.in/yaml.v2 into a fresh [OneTerminalConfig]:
    the configuration that the bytes stand for, or an error. *)
Variable Unmarshal : string → OneTerminalConfig + error.

(** The [for ... range files] loop of [ParseConfigs]. *)
Fixpoint readConfigs (configDir : string) (files : list string) (h : Host)
    (allConfigs : list OneTerminalConfig)
    : list OneTerminalConfig + error :=
  match files with
  | [] => inl allConfigs
  | f :: rest =>
      let filename := configDir +:+ "/" +:+ f in
      match ioutil.ReadFile filename h with
      | inr err => inr (Wrap err ("reading file " +:+ filename))
      | inl bytes =>
          match Unmarshal bytes with
          | inr err => inr (Wrap err ("unmarshalling file " +:+ filename))
          | inl oneTermConfig =>
              readConfigs configDir rest h (allConfigs ++ [oneTermConfig])
          end
      end
  end.

(** [ParseConfigs] parses each file in the config directory into a slice.
    The host comes back too: [GetConfigDir] may have made the directory. *)
Definition ParseConfigs (h : Host)
    : (list OneTerminalConfig + error) * Host :=
  match GetConfigDir h with
  | ((_, Some err), h) => (inr err, h)
  | ((configDir, None), h) =>
      match ioutil.ReadDir configDir h with
      | inr err => (inr (Wrap err "reading from config directory"), h)
      | inl files => (readConfigs configDir files h [], h)
      end
  end.

(** [ParseAndAddToRoot] parses all the config files and adds their
    commands to the root command. *)
Definition ParseAndAddToRoot (h : Host) (rootCmd : list cobra.Command)
    : Outcome * Host :=
  match ParseConfigs h with
  | (inr err, h) => (Panicked ("Reading configs " +:+ err) rootCmd, h)
  | (inl cmdConfigs, h) => (registerConfigs cmdConfigs ∅ rootCmd, h)
  end.
End ParseConfigs.

(** The configuration that [MakeExampleConfigFromStruct] writes. *)
Definition exampleConfig : OneTerminalConfig := {|
  Name := "somename";
  Shell := "zsh";
  Short := "An example command that says hello twice";
  Long := "A very polite shell command that says" +:+ LF
          +:+ "hello to you multiple times. " +:+ LF
          +:+ TAB +:+ LF
          +:+ "Some say you can hear it from space.";
  Commands := [
    {| Command.Name := "greeter-1";
       Command.Command := "echo hello from window 1";
       Command.CmdDir := "$HOME/go"; Command.Silence := false |};
    {| Command.Name := "greeter-2";
       Command.Command := "echo hello from window 2";
       Command.CmdDir := ""; Command.Silence := false |};
    {| Command.Name := "";
       Command.Command := "echo they silenced me :(";
       Command.CmdDir := ""; Command.Silence := true |}
  ];
|}.

(** A host to try things on: a user [u] whose home exists and has no
    [.config] yet. *)
Definition sampleHost : Host := {|
  environ := <["HOME" := "/home/u"]> ∅;
  cwd := ["home"; "u"];
  files := <[["home"; "u"] := Dir true]>
             (<[["home"] := Dir false]> (<[[] := Dir false]> ∅));
|}.

(** A stand-in for [yaml.Unmarshal] in the examples: the bytes of the file
    are the configuration's name, and an empty file is an error. *)
Definition unmarshalName (bytes : string) : OneTerminalConfig + error :=
  if decide (bytes = "") then inr "EOF"
  else inl {| Name := bytes; Shell := "bash"; Short := ""; Long := "";
              Commands := [] |}.

(** The sample host with a config directory that holds the given files. *)
Definition hostWithConfigs (configs : list (string * string)) : Host := {|
  environ := environ sampleHost;
  cwd := cwd sampleHost;
  files :=
    foldr (λ entry, <[["home"; "u"; ".config"; "oneterminal"; fst entry]
                      := File (snd entry)]>)
          (<[["home"; "u"; ".config"; "oneterminal"] := Dir true]>
             (<[["home"; "u"; ".config"] := Dir true]> (files sampleHost)))
          configs;
|}.

(** Stand-ins for [yaml.Marshal] and [yaml.Unmarshal] in the examples with
    the example configurations: the bytes written are the configuration's
    name, and every text that is not empty reads as the example
    configuration. *)
Definition marshalName (c : OneTerminalConfig) : string + error :=
  inl (Name c).

Definition unmarshalExample (bytes : string) : OneTerminalConfig + error :=
  if decide (bytes = "") then inr "EOF" else inl exampleConfig.

(** ** The example configurations *)

(** A double quote, as a one-byte string. *)
Definition DQ : string := String dquote "".

Section MakeExampleConfigFromStruct.
(** [yaml.Marshal] of gopkg.in/yaml.v2 on an [OneTerminalConfig]: its bytes,
    or an error. *)
Variable Marshal : OneTerminalConfig → string + error.

(** [MakeExampleConfigFromStruct] generates an example config file in the
    config directory from the struct.  The result is Go's error ([None] for
    [nil]) and the host as the call leaves it. *)
Definition MakeExampleConfigFromStruct (h : Host) : option error * Host :=
  match GetConfigDir h with
  | ((_, Some err), h) => (Some err, h)
  | ((oneTermConfigDir, None), h) =>
      match Marshal exampleConfig with
      | inr err => (Some (Wrap err "marshalling yaml"), h)
      | inl bytes =>
          match ioutil.WriteFile
                  (filepath.Join [oneTermConfigDir; "generated-example.yml"])
                  bytes os.ModePerm h with
          | (h, Some err) =>
              (Some (Wrap err "writing to example config file"), h)
          | (h, None) => (None, h)
          end
      end
  end.
End MakeExampleConfigFromStruct.

(** The bytes that [MakeExampleConfigFromStructWithInstructions] writes: the
    raw string literal of the source, line by line ([DQ] is a double
    quote). *)
Definition exampleYml : string :=
  "# The name of the command, it cannot have special characters" +:+ LF
  +:+ "name: somename" +:+ LF
  +:+ LF
  +:+ "# shell to use, zsh and bash are supported" +:+ LF
  +:+ "shell: zsh" +:+ LF
  +:+ LF
  +:+ "# a short description of what this command does" +:+ LF
  +:+ "short: an example command that says hello twice" +:+ LF
  +:+ "# OPTIONAL: longer description of what this command does" +:+ LF
  +:+ "long: Optional longer description" +:+ LF
  +:+ LF
  +:+ "# commands are made of" +:+ LF
  +:+ "#   1. command string (the command to run, will be expanded via os.ExpandEnv)" +:+ LF
  +:+ "#   2. name string, text to prefix each line of this command's output" +:+ LF
  +:+ "#      NOTE: an empty string is a valid name and is useful for things like vault" +:+ LF
  +:+ "#            which write to stdout in small chunks" +:+ LF
  +:+ "#   3. directory string (optional), what directory to run the command from" +:+ LF
  +:+ "#      NOTE: use $HOME, not ~. This strings gets passed through os.ExpandEnv" +:+ LF
  +:+ "#   4. silence boolean (optional: default false), if true will silence that command's output" +:+ LF
  +:+ "commands:" +:+ LF
  +:+ "- name: greeter-1" +:+ LF
  +:+ "  command: echo hello from window 1" +:+ LF
  +:+ "  directory: $HOME/go" +:+ LF
  +:+ "  silence: false" +:+ LF
  +:+ "- name: greeter-2" +:+ LF
  +:+ "  command: echo hello from window 2" +:+ LF
  +:+ "  silence: false" +:+ LF
  +:+ "- name: " +:+ DQ +:+ DQ +:+ LF
  +:+ "  command: echo " +:+ DQ +:+ "they silenced me :'(" +:+ DQ +:+ LF
  +:+ "  silence: true" +:+ LF
  +:+ "".

(** [MakeExampleConfigFromStructWithInstructions] writes an example yaml
    config to [example.yml] in the config directory, with helpful
    comments. *)
Definition MakeExampleConfigFromStructWithInstructions (h : Host)
    : option error * Host :=
  match GetConfigDir h with
  | ((_, Some err), h) => (Some err, h)
  | ((oneTermConfigDir, None), h) =>
      match ioutil.WriteFile (oneTermConfigDir +:+ "/example.yml")
                             exampleYml os.ModePerm h with
      | (h, Some err) => (Some (Wrap err "writing to example config file"), h)
      | (h, None) => (None, h)
      end
  end.

(** ** Words for the statements *)

(** Two configurations at different places of the list have the same
    name. *)
Definition shareName (cmdConfigs : list OneTerminalConfig) : Prop :=
  ∃ i j c1 c2, i ≠ j ∧ cmdConfigs !! i = Some c1 ∧ cmdConfigs !! j = Some c2
               ∧ Name c1 = Name c2.

(** Some configuration has a reserved name. *)
Definition hasReservedName (cmdConfigs : list OneTerminalConfig) : Prop :=
  ∃ c, c ∈ cmdConfigs ∧ Name c ∈ ["completion"; "example"; "help"].


(** The root command that a call leaves, however it ends. *)
Definition rootOf (o : Outcome) : list cobra.Command :=
  match o with
  | Returned rootCmd => rootCmd
  | Panicked _ rootCmd => rootCmd
  end.

(** The text has no separator. *)
Definition noSlash (e : string) : Prop := os.IndexByte e "/" = None.

(** A name that an entry of a directory can have: not empty, not [.] or
    [..], and without a separator. *)
Definition properElem (e : string) : Prop :=
  e ≠ "" ∧ e ≠ "." ∧ e ≠ ".." ∧ noSlash e.

(** The place of the config directory of a host whose home directory is
    [homedir]. *)
Definition configPlace (h : Host) (homedir : string) : list string :=
  os.placeOf h homedir ++ [".config"; "oneterminal"].

(** The entry [name] of the directory [dir] is a file whose bytes
    [Unmarshal] reads as [cfg]. *)
Definition readsAs (Unmarshal : string → OneTerminalConfig + error)
    (dir : string) (h : Host) (name : string) (cfg : OneTerminalConfig)
    : Prop :=
  ∃ bytes, ioutil.ReadFile (dir +:+ "/" +:+ name) h = inl bytes
           ∧ Unmarshal bytes = inl cfg.

(** The call ends in a panic. *)
Definition panics (o : Outcome) : Prop := ∃ message r, o = Panicked message r.

(** The cases of the four [if] statements that build an option list. *)
Ltac options_cases config cmd :=
  unfold commandOptions;
  destruct (decide (Command.Name cmd ≠ ""));
  destruct (decide (Shell config = "bash"));
  destruct (decide (Command.CmdDir cmd ≠ ""));
  destruct (Command.Silence cmd) eqn:?;
  simpl; rewrite ?elem_of_cons, ?elem_of_nil.

(** * Properties *)

(** ** The names of the commands *)

Section index_facts.
Implicit Types (m : gmap string bool) (k : string).

Lemma index_empty k : index ∅ k = false.
Proof. unfold index. by rewrite lookup_empty. Qed.

Lemma index_insert_true m k k' :
  index (<[k := true]> m) k' = if decide (k = k') then true else index m k'.
Proof.
  unfold index. rewrite lookup_insert. by case_decide.
Qed.

Lemma index_reservedNames k :
  index reservedNames k = true ↔ k ∈ ["completion"; "example"; "help"].
Proof.
  unfold reservedNames. rewrite !index_insert_true, index_empty.
  rewrite !elem_of_cons, elem_of_nil.
  destruct (decide ("completion" = k)) as [<-|?]; [by split; auto|].
  destruct (decide ("example" = k)) as [<-|?]; [by split; auto|].
  destruct (decide ("help" = k)) as [<-|?]; [by split; auto|].
  split; [done|]. intros [?|[?|[?|[]]]]; congruence.
Qed.
End index_facts.

(** The loop returns exactly when no name is in [allNames] already, no two
    names are equal and no name is reserved; it has then added every
    configuration's command, in order. *)
Lemma registerConfigs_Returned cmdConfigs allNames rootCmd r :
  registerConfigs cmdConfigs allNames rootCmd = Returned r ↔
    Forall (λ c, index allNames (Name c) = false) cmdConfigs
    ∧ NoDup (Name <$> cmdConfigs)
    ∧ Forall (λ c, index reservedNames (Name c) = false) cmdConfigs
    ∧ r = rootCmd ++ (cobraCommand <$> cmdConfigs).
Proof.
  revert allNames rootCmd.
  induction cmdConfigs as [|config rest IH]; intros allNames rootCmd; simpl.
  - rewrite app_nil_r. split.
    + intros [= ->]. repeat split; constructor.
    + by intros (_ & _ & _ & ->).
  - destruct (index allNames (Name config)) eqn:Hseen.
    { split; [done|]. intros (Hall & _).
      apply Forall_cons in Hall as [Hhd _]. simpl in Hhd. congruence. }
    destruct (index reservedNames (Name config)) eqn:Hres.
    { split; [done|]. intros (_ & _ & Hall & _).
      apply Forall_cons in Hall as [Hhd _]. simpl in Hhd. congruence. }
    rewrite IH. unfold cobra.AddCommand. rewrite <- app_assoc. simpl.
    rewrite NoDup_cons, !Forall_cons, list_elem_of_fmap.
    split.
    + intros (Hfresh & Hnd & Hnr & ->). repeat split; try done.
      * eapply Forall_impl; [exact Hfresh|]. intros c. simpl.
        rewrite index_insert_true. by case_decide.
      * intros (c & Heq & Hc). rewrite Forall_forall in Hfresh.
        specialize (Hfresh c Hc). simpl in Hfresh.
        rewrite index_insert_true in Hfresh. by case_decide.
    + intros ((_ & Hfresh) & (Hnotin & Hnd) & (_ & Hnr) & ->).
      repeat split; try done.
      rewrite Forall_forall in Hfresh |- *. intros c Hc.
      rewrite index_insert_true. case_decide as Heq; [|by apply Hfresh].
      exfalso. apply Hnotin. by exists c.
Qed.

(** When the loop panics, it does so at one configuration of the list, with
    one of the two messages, and the root command holds the commands of the
    configurations before that one. *)
Lemma registerConfigs_Panicked cmdConfigs allNames rootCmd message r :
  registerConfigs cmdConfigs allNames rootCmd = Panicked message r →
  ∃ before config after,
    cmdConfigs = before ++ config :: after
    ∧ r = rootCmd ++ (cobraCommand <$> before)
    ∧ (message = "Multiple commands have the same name " +:+ Name config
       ∨ (message = "The command name " +:+ Sprintf_q (Name config)
                    +:+ " is reserved :("
          ∧ Name config ∈ ["completion"; "example"; "help"])).
Proof.
  revert allNames rootCmd.
  induction cmdConfigs as [|config rest IH]; intros allNames rootCmd; simpl.
  { done. }
  destruct (index allNames (Name config)).
  { intros [= <- <-]. exists [], config, rest. rewrite app_nil_r. auto. }
  destruct (index reservedNames (Name config)) eqn:Hres.
  { intros [= <- <-]. exists [], config, rest. rewrite app_nil_r.
    apply index_reservedNames in Hres. auto. }
  intros (before & c & after & -> & -> & Hmsg)%IH.
  exists (config :: before), c, after. split; [done|].
  split; [|done]. unfold cobra.AddCommand.
  by rewrite <- app_assoc.
Qed.

Lemma registerConfigs_total cmdConfigs allNames rootCmd :
  (∃ r, registerConfigs cmdConfigs allNames rootCmd = Returned r)
  ∨ (∃ message r,
       registerConfigs cmdConfigs allNames rootCmd = Panicked message r).
Proof.
  destruct (registerConfigs cmdConfigs allNames rootCmd); eauto.
Qed.

Lemma shareName_NoDup cmdConfigs :
  ¬ shareName cmdConfigs ↔ NoDup (Name <$> cmdConfigs).
Proof.
  rewrite NoDup_alt. unfold shareName. split.
  - intros Hno i j x Hi Hj.
    rewrite list_lookup_fmap in Hi, Hj.
    destruct (cmdConfigs !! i) as [c1|] eqn:E1; [|done].
    destruct (cmdConfigs !! j) as [c2|] eqn:E2; [|done].
    simpl in *. simplify_eq.
    destruct (decide (i = j)) as [|Hne]; [done|].
    exfalso. apply Hno. exists i, j, c1, c2. by rewrite E1, E2.
  - intros Hnd (i & j & c1 & c2 & Hne & Hi & Hj & Heq).
    apply Hne, (Hnd i j (Name c1)); rewrite list_lookup_fmap.
    + by rewrite Hi.
    + by rewrite Hj, Heq.
Qed.

Lemma hasReservedName_Forall cmdConfigs :
  ¬ hasReservedName cmdConfigs ↔
  Forall (λ c, index reservedNames (Name c) = false) cmdConfigs.
Proof.
  rewrite Forall_forall. unfold hasReservedName. split.
  - intros Hno c Hc.
    destruct (index reservedNames (Name c)) eqn:E; [|done].
    exfalso. apply Hno. exists c. by rewrite <- index_reservedNames.
  - intros Hall (c & Hc & Hres). apply index_reservedNames in Hres.
    by rewrite (Hall c Hc) in Hres.
Qed.

(** C8.  On the configurations that [ParseConfigs] parsed,
    [ParseAndAddToRoot] panics when two of them have the same name, and
    panics when the name of one is a reserved name (completion, example or
    help); when neither is the case it returns, and the root command has
    gained one command per configuration, in the order of the list.  (When
    the configurations cannot be parsed it panics as well.) *)
Theorem ParseAndAddToRoot_enforces_names
    (Unmarshal : string → OneTerminalConfig + error) (h : Host)
    (rootCmd : list cobra.Command) :
  match ParseConfigs Unmarshal h with
  | (inl cmdConfigs, _) =>
      (shareName cmdConfigs →
         panics (fst (ParseAndAddToRoot Unmarshal h rootCmd)))
      ∧ (hasReservedName cmdConfigs →
         panics (fst (ParseAndAddToRoot Unmarshal h rootCmd)))
      ∧ (¬ shareName cmdConfigs → ¬ hasReservedName cmdConfigs →
         fst (ParseAndAddToRoot Unmarshal h rootCmd)
         = Returned (rootCmd ++ (cobraCommand <$> cmdConfigs)))
  | (inr err, _) =>
      fst (ParseAndAddToRoot Unmarshal h rootCmd)
      = Panicked ("Reading configs " +:+ err) rootCmd
  end.
Proof.
  unfold ParseAndAddToRoot.
  destruct (ParseConfigs Unmarshal h) as [[cmdConfigs|err] h']; [|done].
  simpl.
  assert (Hpanic : (∀ r, registerConfigs cmdConfigs ∅ rootCmd ≠ Returned r)
                   → panics (registerConfigs cmdConfigs ∅ rootCmd)).
  { intros Hnot. unfold panics.
    destruct (registerConfigs_total cmdConfigs ∅ rootCmd) as [[r Hr]|Hp];
      [|exact Hp].
    by destruct (Hnot r). }
  split; [|split].
  - intros Hshare. apply Hpanic. intros r Hr.
    rewrite registerConfigs_Returned in Hr. destruct Hr as (_ & Hnd & _).
    by apply shareName_NoDup in Hnd.
  - intros Hres. apply Hpanic. intros r Hr.
    rewrite registerConfigs_Returned in Hr. destruct Hr as (_ & _ & Hnr & _).
    by apply hasReservedName_Forall in Hnr.
  - intros Hshare Hres. apply registerConfigs_Returned.
    repeat split.
    + apply Forall_forall. intros c _. apply index_empty.
    + by apply shareName_NoDup.
    + by apply hasReservedName_Forall.
Qed.

Example ParseConfigs_sorted :
  fst (ParseConfigs unmarshalName
         (hostWithConfigs [("b.yml", "web"); ("a.yml", "db")]))
  = inl [ {| Name := "db"; Shell := "bash"; Short := ""; Long := "";
             Commands := [] |};
          {| Name := "web"; Shell := "bash"; Short := ""; Long := "";
             Commands := [] |} ].
Proof. vm_compute. reflexivity. Qed.

Example ParseAndAddToRoot_registers :
  fst (ParseAndAddToRoot unmarshalName
         (hostWithConfigs [("b.yml", "web"); ("a.yml", "db")]) [])
  = Returned [ {| cobra.Use := "db"; cobra.Short := ""; cobra.Long := "";
                  cobra.Run := {| Name := "db"; Shell := "bash"; Short := "";
                                  Long := ""; Commands := [] |} |};
               {| cobra.Use := "web"; cobra.Short := ""; cobra.Long := "";
                  cobra.Run := {| Name := "web"; Shell := "bash"; Short := "";
                                  Long := ""; Commands := [] |} |} ].
Proof. vm_compute. reflexivity. Qed.

Example ParseAndAddToRoot_duplicate :
  fst (ParseAndAddToRoot unmarshalName
         (hostWithConfigs [("b.yml", "web"); ("a.yml", "web")]) [])
  = Panicked "Multiple commands have the same name web"
      [ {| cobra.Use := "web"; cobra.Short := ""; cobra.Long := "";
           cobra.Run := {| Name := "web"; Shell := "bash"; Short := "";
                           Long := ""; Commands := [] |} |} ].
Proof. vm_compute. reflexivity. Qed.

Example ParseAndAddToRoot_reserved :
  fst (ParseAndAddToRoot unmarshalName
         (hostWithConfigs [("a.yml", "help")]) [])
  = Panicked ("The command name " +:+ String dquote "help"
              +:+ String dquote "" +:+ " is reserved :(") [].
Proof. vm_compute. reflexivity. Qed.

Example ParseAndAddToRoot_unreadable :
  fst (ParseAndAddToRoot unmarshalName
         (hostWithConfigs [("a.yml", "")]) [])
  = Panicked ("Reading configs unmarshalling file "
              +:+ "/home/u/.config/oneterminal/a.yml: EOF") [].
Proof. vm_compute. reflexivity. Qed.

Example registerConfigs_exampleConfig :
  registerConfigs [exampleConfig] ∅ []
  = Returned [{| cobra.Use := "somename";
                 cobra.Short := "An example command that says hello twice";
                 cobra.Long := Long exampleConfig;
                 cobra.Run := exampleConfig |}].
Proof. vm_compute. reflexivity. Qed.

(** ** The option list *)

Example exampleConfig_calls :
  monitor.call_options <$> runClosure exampleConfig =
  [ [monitor.PrefixStdout "greeter-1"; monitor.SetCmdDir "$HOME/go"];
    [monitor.PrefixStdout "greeter-2"];
    [monitor.SilenceOutput] ].
Proof. reflexivity. Qed.

Lemma BashShell_in_commandOptions config cmd :
  monitor.BashShell ∈ commandOptions config cmd ↔ Shell config = "bash".
Proof.
  options_cases config cmd; split; intros; try done; auto;
    repeat match goal with H : _ ∨ _ |- _ => destruct H end; done.
Qed.

(** C9.  The option [monitor.BashShell] is in the option list built for a
    command exactly when the configuration's [Shell] is the string bash, and
    then it is there once; with any other value, such as the zsh of the
    generated example configuration, no command of the configuration gets
    it. *)
Theorem BashShell_iff_Shell_is_bash (config : OneTerminalConfig) :
  (∀ cmd, monitor.BashShell ∈ commandOptions config cmd
          ↔ Shell config = "bash")
  ∧ (∀ cmd, length (filter (λ o, o = monitor.BashShell)
                           (commandOptions config cmd))
            = if decide (Shell config = "bash") then 1 else 0)
  ∧ (Shell config ≠ "bash" →
     Forall (λ call, monitor.BashShell ∉ monitor.call_options call)
            (runClosure config))
  ∧ Shell exampleConfig = "zsh"
  ∧ Forall (λ call, monitor.BashShell ∉ monitor.call_options call)
           (runClosure exampleConfig).
Proof.
  assert (Hother : ∀ config', Shell config' ≠ "bash" →
            Forall (λ call, monitor.BashShell ∉ monitor.call_options call)
                   (runClosure config')).
  { intros config' Hne. unfold runClosure. apply Forall_fmap, Forall_forall.
    intros cmd _. simpl. by rewrite BashShell_in_commandOptions. }
  split; [|split; [|split; [|split]]].
  - intros cmd. apply BashShell_in_commandOptions.
  - intros cmd. unfold commandOptions.
    destruct (decide (Command.Name cmd ≠ ""));
      destruct (decide (Shell config = "bash"));
      destruct (decide (Command.CmdDir cmd ≠ ""));
      destruct (Command.Silence cmd); reflexivity.
  - apply Hother.
  - reflexivity.
  - by apply Hother.
Qed.

(** ** What the option list stands for *)



(** ** The multiplexer *)

Section multiplexer.
Import monitor.
Implicit Types (cmds : list CommandSpec) (m : Multiplexer) (i : nat).

Lemma string_app_cons (c : ascii) (a b : string) :
  String c a +:+ b = String c (a +:+ b).
Proof. reflexivity. Qed.

Lemma string_app_nil_l (a : string) : "" +:+ a = a.
Proof. reflexivity. Qed.







End multiplexer.

Section multiplexer_runs.
Import monitor.
Implicit Types (cmds : list CommandSpec) (m : Multiplexer) (i j : nat).
Implicit Types (events : list Event) (s : CommandSpec).














End multiplexer_runs.

(** ** Silencing and prefixing, from the configuration to the sink *)



Example exampleConfig_sink :
  monitor.sink
    (monitor.run (orchestratorCommands exampleConfig)
       [monitor.Chunk 0 "hel"; monitor.Chunk 2 ("quiet" +:+ LF);
        monitor.Chunk 1 ("one" +:+ LF +:+ "tw"); monitor.Chunk 0 ("lo" +:+ LF);
        monitor.Close 0; monitor.Close 2; monitor.Close 1])
  = [ {| monitor.origin := 1; monitor.bytes := "[greeter-2] one" +:+ LF |};
      {| monitor.origin := 0; monitor.bytes := "[greeter-1] hello" +:+ LF |};
      {| monitor.origin := 1; monitor.bytes := "[greeter-2] tw" |} ].
Proof. vm_compute. reflexivity. Qed.



(** ** The file tree *)

Section file_tree.
Import os.
Implicit Types (fs : gmap (list string) Node) (key from elems : list string).

Lemma walk_snoc fs from elems e :
  walk fs from (elems ++ [e])
  = match walk fs from elems with
    | Some (Dir _) => fs !! (from ++ elems ++ [e])
    | _ => None
    end.
Proof.
  revert from. induction elems as [|a elems IH]; intros from; simpl.
  - by destruct (fs !! from) as [[]|].
  - destruct (fs !! from) as [[]|]; [|done..].
    by rewrite IH, <- app_assoc.
Qed.

(** A walk that ends at a directory passed directories only. *)
Lemma walk_prefixes fs from elems w a b :
  walk fs from elems = Some (Dir w) → elems = a ++ b →
  ∃ w', fs !! (from ++ a) = Some (Dir w').
Proof.
  revert from a. induction elems as [|e elems IH]; intros from a Hwalk Heq.
  - symmetry in Heq. apply app_eq_nil in Heq as [-> _].
    rewrite app_nil_r. eauto.
  - simpl in Hwalk. destruct (fs !! from) as [[w0|]|] eqn:Hfrom; [|done..].
    destruct a as [|e' a]; simpl in Heq.
    + rewrite app_nil_r. eauto.
    + simplify_eq. destruct (IH _ a Hwalk eq_refl) as [w' Hw'].
      exists w'. by rewrite <- app_assoc in Hw'.
Qed.

(** A new entry at a longer place is not seen by a walk. *)
Lemma walk_insert_longer fs from elems key n :
  length (from ++ elems) < length key →
  walk (<[key := n]> fs) from elems = walk fs from elems.
Proof.
  revert from. induction elems as [|e elems IH]; intros from Hlen; simpl.
  - rewrite lookup_insert_ne; [done|]. intros ->.
    rewrite app_nil_r in Hlen. lia.
  - rewrite lookup_insert_ne.
    + destruct (fs !! from) as [[]|]; [|done..].
      apply IH. rewrite <- app_assoc. exact Hlen.
    + intros ->. rewrite length_app in Hlen. lia.
Qed.

Lemma Stat_snoc fs key e :
  Stat fs (key ++ [e])
  = match Stat fs key with
    | Some (Dir _) => fs !! (key ++ [e])
    | _ => None
    end.
Proof. unfold Stat. by rewrite walk_snoc. Qed.

Lemma removelast_snoc key :
  key ≠ [] → ∃ e, key = removelast key ++ [e].
Proof.
  intros Hne. exists (List.last key "").
  by apply app_removelast_last.
Qed.

(** When [Mkdir] succeeds the place was free, the tree has gained exactly
    the new directory, and [Stat] finds it. *)
Lemma Mkdir_ok fs key path perm fs' :
  Mkdir fs key path perm = (fs', None) →
  fs !! key = None
  ∧ fs' = <[key := Dir (Nat.testbit perm 7)]> fs
  ∧ Stat fs' key = Some (Dir (Nat.testbit perm 7)).
Proof.
  unfold Mkdir. intros Hmk.
  destruct (Stat fs key) eqn:Hkey; [done|].
  destruct (Stat fs (removelast key)) as [[[]|]|] eqn:Hparent; [|done..].
  assert (key ≠ []) as Hne.
  { intros ->. simpl in Hparent. congruence. }
  simplify_eq.
  destruct (removelast_snoc key Hne) as [e He].
  assert (fs !! key = None) as Hfree.
  { rewrite He, Stat_snoc, Hparent in Hkey. by rewrite He. }
  split; [done|]. split; [done|].
  rewrite He at 2. rewrite Stat_snoc. unfold Stat.
  rewrite walk_insert_longer.
  - fold (Stat fs (removelast key)). rewrite Hparent.
    rewrite <- He. apply lookup_insert_eq.
  - simpl. rewrite He at 2. rewrite length_app. simpl. lia.
Qed.

Lemma Mkdir_error fs key path perm fs' err :
  Mkdir fs key path perm = (fs', Some err) → fs' = fs.
Proof.
  unfold Mkdir. intros Hmk.
  destruct (Stat fs key); [by simplify_eq|].
  by destruct (Stat fs (removelast key)) as [[[]|]|]; simplify_eq.
Qed.

(** One round of [mkdirAll], with the parent's result named. *)
Lemma mkdirAll_unfold h isRooted relems perm fs :
  mkdirAll h isRooted relems perm fs
  = let key := place h isRooted (rev relems) in
    let path :=
      (if isRooted then "/" else "") +:+ filepath.joinElems (rev relems) in
    match Stat fs key with
    | Some (Dir _) => (fs, None)
    | Some (File _) => (fs, Some (PathError "mkdir" path ENOTDIR))
    | None =>
        let '(fs, err) :=
          match relems with
          | _ :: (_ :: _) as parent => mkdirAll h isRooted parent perm fs
          | _ => (fs, None)
          end in
        match err with
        | Some err => (fs, Some err)
        | None =>
            let '(fs, err) := Mkdir fs key path perm in
            match err with
            | None => (fs, None)
            | Some err =>
                match Stat fs key with
                | Some (Dir _) => (fs, None)
                | _ => (fs, Some err)
                end
            end
        end
    end.
Proof. by destruct relems. Qed.

(** After a successful [mkdirAll] the path is a directory. *)
Lemma mkdirAll_ok h isRooted relems perm fs fs' :
  mkdirAll h isRooted relems perm fs = (fs', None) →
  ∃ w, Stat fs' (place h isRooted (rev relems)) = Some (Dir w).
Proof.
  rewrite mkdirAll_unfold. cbv zeta.
  destruct (Stat fs _) as [[w|]|] eqn:Hstat.
  - intros [= <-]. eauto.
  - done.
  - destruct (match relems with
              | _ :: (_ :: _) as parent => mkdirAll h isRooted parent perm fs
              | _ => (fs, None)
              end) as [fs1 [err|]]; [done|].
    destruct (Mkdir fs1 _ _ perm) as [fs2 [err|]] eqn:Hmk.
    + destruct (Stat fs2 _) as [[w|]|] eqn:Hstat2; [|done..].
      intros [= <-]. eauto.
    + intros [= <-]. apply Mkdir_ok in Hmk as (_ & _ & Hnew). eauto.
Qed.

(** [mkdirAll] only adds entries: what the tree held, it still holds. *)
Lemma mkdirAll_subseteq h isRooted relems perm fs fs' err :
  mkdirAll h isRooted relems perm fs = (fs', err) → fs ⊆ fs'.
Proof.
  revert fs fs' err.
  induction relems as [|e parent IH]; intros fs fs' err;
    rewrite mkdirAll_unfold; cbv zeta.
  - destruct (Stat fs _) as [[w|]|]; [by intros [= <- _]..|].
    destruct (Mkdir fs _ _ perm) as [fs2 [err2|]] eqn:Hmk.
    + apply Mkdir_error in Hmk as ->.
      by destruct (Stat fs _) as [[w|]|]; intros [= <- _].
    + apply Mkdir_ok in Hmk as (Hfree & -> & _).
      intros [= <- _]. by apply insert_subseteq.
  - destruct (Stat fs _) as [[w|]|]; [by intros [= <- _]..|].
    assert (∃ fs1 err1,
      match parent with
      | _ :: _ => mkdirAll h isRooted parent perm fs
      | [] => (fs, None)
      end = (fs1, err1) ∧ fs ⊆ fs1) as (fs1 & err1 & Hpar & Hsub).
    { destruct parent as [|e' parent'].
      - by exists fs, None.
      - destruct (mkdirAll h isRooted (e' :: parent') perm fs)
          as [fs1 err1] eqn:Hp.
        exists fs1, err1. split; [done|]. by eapply IH. }
    replace (match parent with
             | _ :: _ => mkdirAll h isRooted parent perm fs
             | [] => (fs, None)
             end) with (fs1, err1).
    destruct err1 as [err1|]; [by intros [= <- _]|].
    destruct (Mkdir fs1 _ _ perm) as [fs2 [err2|]] eqn:Hmk.
    + apply Mkdir_error in Hmk as ->.
      by destruct (Stat fs1 _) as [[w|]|]; intros [= <- _].
    + apply Mkdir_ok in Hmk as (Hfree & -> & _).
      intros [= <- _]. etrans; [exact Hsub|]. by apply insert_subseteq.
Qed.
End file_tree.

(** ** GetConfigDir *)

Lemma MkdirAll_inv path perm h h' err :
  os.MkdirAll path perm h = (h', err) →
  environ h' = environ h ∧ cwd h' = cwd h
  ∧ os.mkdirAll h (filepath.rooted path) (rev (os.pathElems path)) perm
      (files h) = (files h', err).
Proof.
  unfold os.MkdirAll.
  destruct (os.mkdirAll _ _ _ _ _) as [fs e]. by intros [= <- <-].
Qed.

Lemma placeOf_same_env h h' path :
  cwd h' = cwd h → os.placeOf h' path = os.placeOf h path.
Proof. intros Hcwd. unfold os.placeOf, os.place. by rewrite Hcwd. Qed.

(** After a successful [MkdirAll] the path is a directory, and so is every
    place on the way to it; the entries that were there are untouched. *)
Lemma MkdirAll_ok path perm h h' :
  os.MkdirAll path perm h = (h', None) →
  os.IsDir h' path = true
  ∧ (∀ p, p `prefix_of` os.placeOf h' path →
          ∃ w, files h' !! p = Some (Dir w))
  ∧ files h ⊆ files h'.
Proof.
  intros Hmk. apply MkdirAll_inv in Hmk as (Henv & Hcwd & Hmk).
  pose proof (mkdirAll_subseteq _ _ _ _ _ _ _ Hmk) as Hsub.
  apply mkdirAll_ok in Hmk as [w Hw]. rewrite rev_involutive in Hw.
  fold (os.placeOf h path) in Hw.
  rewrite <- (placeOf_same_env h h' path Hcwd) in Hw.
  split; [|split; [|done]].
  - unfold os.IsDir. by rewrite Hw.
  - intros p [rest Hp]. unfold os.Stat in Hw.
    apply (walk_prefixes _ [] _ w p rest) in Hw; [|done].
    exact Hw.
Qed.

(** [MkdirAll] leaves the host alone when the directory is there. *)
Lemma MkdirAll_existing path perm h :
  os.IsDir h path = true → os.MkdirAll path perm h = (h, None).
Proof.
  unfold os.IsDir, os.MkdirAll, os.placeOf. intros Hdir.
  rewrite mkdirAll_unfold. cbv zeta. rewrite rev_involutive.
  destruct (os.Stat (files h) _) as [[w|]|]; [|done..].
  by destruct h.
Qed.

(** C10.  [GetConfigDir] returns, with a nil error, the path that
    [filepath.Join] makes of the user's home directory and
    [.config/oneterminal]; that path is then a directory, with every parent
    on the way, made by the call where it was missing (a host on which it was
    a directory already is unchanged, and no entry of the file tree is lost).
    It returns an error, and then the empty path, only when the home
    directory is not found or the directory cannot be made. *)
Theorem GetConfigDir_returns_config_dir (h : Host) :
  match GetConfigDir h with
  | ((path, None), h') =>
      ∃ homedir,
        os.UserHomeDir h = inl homedir
        ∧ path = filepath.Join [homedir; ".config/oneterminal"]
        ∧ os.MkdirAll path os.ModePerm h = (h', None)
        ∧ os.IsDir h' path = true
        ∧ (∀ p, p `prefix_of` os.placeOf h' path →
                ∃ w, files h' !! p = Some (Dir w))
        ∧ files h ⊆ files h'
        ∧ (os.IsDir h path = true → h' = h)
  | ((path, Some err), h') =>
      path = ""
      ∧ ((∃ e, os.UserHomeDir h = inr e
               ∧ err = Wrap e "finding home directory" ∧ h' = h)
         ∨ (∃ homedir,
              os.UserHomeDir h = inl homedir
              ∧ os.MkdirAll (filepath.Join [homedir; ".config/oneterminal"])
                            os.ModePerm h = (h', Some err)))
  end.
Proof.
  unfold GetConfigDir.
  destruct (os.UserHomeDir h) as [homedir|e] eqn:Hhome.
  - cbv zeta.
    destruct (os.MkdirAll _ os.ModePerm h) as [h' [err|]] eqn:Hmk.
    + split; [done|]. right. by exists homedir.
    + exists homedir.
      destruct (MkdirAll_ok _ _ _ _ Hmk) as (Hdir & Hpre & Hsub).
      repeat split; try done.
      intros Hthere. rewrite (MkdirAll_existing _ _ _ Hthere) in Hmk.
      by simplify_eq.
  - split; [done|]. left. by exists e.
Qed.

Example GetConfigDir_no_home :
  fst (GetConfigDir {| environ := ∅; cwd := []; files := files sampleHost |})
  = ("", Some "finding home directory: $HOME is not defined").
Proof. vm_compute. reflexivity. Qed.

Example GetConfigDir_blocked :
  fst (GetConfigDir
         {| environ := environ sampleHost; cwd := cwd sampleHost;
            files := <[["home"; "u"; ".config"] := File "x"]>
                       (files sampleHost) |})
  = ("", Some "mkdir /home/u/.config: not a directory").
Proof. vm_compute. reflexivity. Qed.

Example GetConfigDir_twice :
  GetConfigDir (snd (GetConfigDir sampleHost))
  = (("/home/u/.config/oneterminal", None), snd (GetConfigDir sampleHost)).
Proof. vm_compute. reflexivity. Qed.

Example GetConfigDir_sampleHost :
  fst (GetConfigDir sampleHost) = ("/home/u/.config/oneterminal", None)
  ∧ files (snd (GetConfigDir sampleHost))
      !! ["home"; "u"; ".config"; "oneterminal"] = Some (Dir true)
  ∧ files (snd (GetConfigDir sampleHost))
      !! ["home"; "u"; ".config"] = Some (Dir true)
  ∧ files sampleHost !! ["home"; "u"; ".config"] = None.
Proof. repeat split; vm_compute; reflexivity. Qed.

(** ** Expansion of environment variables *)

Section expansion.
Import os.
Implicit Types (s rest pre post name : string) (mapping : string → string).



Lemma Expand_nil mapping : Expand "" mapping = "".
Proof. reflexivity. Qed.






End expansion.

Section braces.
Import os.
Implicit Types (s rest pre post name : string) (mapping : string → string).



End braces.


Example ExpandEnv_examples :
  let h := sampleHost in
  os.ExpandEnv h "$HOME/sub" = "/home/u/sub"
  ∧ os.ExpandEnv h "cd ${HOME}/go && echo $USER." = "cd /home/u/go && echo ."
  ∧ os.ExpandEnv h "cost: 5$" = "cost: 5$"
  ∧ os.ExpandEnv h "a $ b ${} c ${ d $1x" = "a $ b  c  d x".
Proof. vm_compute. done. Qed.

Example Start_exampleConfig :
  monitor.Start sampleHost (λ _, true)
    (monitor.NewMonitoredCmd "echo hello from $HOME"
       [monitor.PrefixStdout "greeter-1"; monitor.SetCmdDir "$HOME/go"])
    monitor.Pending
  = (monitor.Running,
     Some {| monitor.req_text := "echo hello from /home/u";
             monitor.req_dir := Some "/home/u/go";
             monitor.req_loginShell := false |}).
Proof. vm_compute. reflexivity. Qed.


(** ** The properties at work on concrete inputs *)

(** Two files that name the same command: the configurations share a name
    and the call panics. *)
Lemma ParseAndAddToRoot_enforces_names_witness :
  let h := hostWithConfigs [("b.yml", "web"); ("a.yml", "web")] in
  (∃ cmdConfigs, fst (ParseConfigs unmarshalName h) = inl cmdConfigs
                 ∧ shareName cmdConfigs)
  ∧ panics (fst (ParseAndAddToRoot unmarshalName h [])).
Proof.
  intros h.
  pose proof (ParseAndAddToRoot_enforces_names unmarshalName h []) as Hthm.
  pose (web := {| Name := "web"; Shell := "bash"; Short := ""; Long := "";
                  Commands := [] |}).
  assert (fst (ParseConfigs unmarshalName h) = inl [web; web]) as Hparsed.
  { vm_compute. reflexivity. }
  assert (shareName [web; web]) as Hshared.
  { exists 0, 1, web, web. repeat split; done. }
  split.
  - exists [web; web]. split; [exact Hparsed | exact Hshared].
  - destruct (ParseConfigs unmarshalName h) as [parsed h'].
    simpl in Hparsed. rewrite Hparsed in Hthm.
    destruct Hthm as (Hshare & _ & _). exact (Hshare Hshared).
Defined.

(** The example configuration asks for zsh: none of its commands gets the
    bash option. *)
Lemma BashShell_iff_Shell_is_bash_witness :
  Shell exampleConfig ≠ "bash"
  ∧ Forall (λ call, monitor.BashShell ∉ monitor.call_options call)
           (runClosure exampleConfig).
Proof.
  destruct (BashShell_iff_Shell_is_bash exampleConfig)
    as (_ & _ & Hother & _ & _).
  assert (Shell exampleConfig ≠ "bash") as Hzsh by done.
  split; [exact Hzsh | exact (Hother Hzsh)].
Defined.



(** On the sample host the directory is made, with its parent. *)
Lemma GetConfigDir_returns_config_dir_witness :
  fst (fst (GetConfigDir sampleHost)) = "/home/u/.config/oneterminal"
  ∧ os.IsDir sampleHost "/home/u/.config/oneterminal" = false
  ∧ os.IsDir (snd (GetConfigDir sampleHost)) "/home/u/.config/oneterminal"
    = true.
Proof.
  pose proof (GetConfigDir_returns_config_dir sampleHost) as Hthm.
  destruct (GetConfigDir sampleHost) as [[path [err|]] h'] eqn:Hcall.
  - exfalso. vm_compute in Hcall. congruence.
  - destruct Hthm as (homedir & Hhome & Hpath & _ & Hdir & _).
    assert (homedir = "/home/u") as ->.
    { vm_compute in Hhome. congruence. }
    simpl. rewrite Hpath in *. split; [vm_compute; reflexivity|].
    split; [vm_compute; reflexivity|]. exact Hdir.
Defined.


(** * Further properties of the configuration layer *)

(** ** The option list, as a whole *)

(** X1.  The option list of a command holds each of the four options at most
    once and in one fixed order: the prefix, the bash shell, the directory,
    the silencing.  The directory option is there exactly when the command's
    directory is not empty, and carries that directory; a command with no
    name, no directory and no silencing under a shell other than bash gets no
    option at all. *)
Theorem commandOptions_in_order (config : OneTerminalConfig)
    (cmd : Command.t) :
  commandOptions config cmd
    `sublist_of` [monitor.PrefixStdout (Command.Name cmd); monitor.BashShell;
                  monitor.SetCmdDir (Command.CmdDir cmd);
                  monitor.SilenceOutput]
  ∧ (∀ dir, monitor.SetCmdDir dir ∈ commandOptions config cmd
            ↔ Command.CmdDir cmd ≠ "" ∧ dir = Command.CmdDir cmd)
  ∧ (commandOptions config cmd = []
     ↔ Command.Name cmd = "" ∧ Shell config ≠ "bash"
       ∧ Command.CmdDir cmd = "" ∧ Command.Silence cmd = false).
Proof.
  split; [|split].
  - unfold commandOptions.
    destruct (decide (Command.Name cmd ≠ ""));
      destruct (decide (Shell config = "bash"));
      destruct (decide (Command.CmdDir cmd ≠ ""));
      destruct (Command.Silence cmd); simpl;
      repeat first [apply sublist_nil | apply sublist_skip | apply sublist_cons].
  - intros dir. options_cases config cmd; split; intros; try done;
      repeat match goal with
             | H : _ ∨ _ |- _ => destruct H
             | H : _ ∧ _ |- _ => destruct H
             | H : False |- _ => destruct H
             end;
      simplify_eq; auto.
  - unfold commandOptions.
    destruct (decide (Command.Name cmd ≠ "")) as [|Hn%dec_stable];
      destruct (decide (Shell config = "bash"));
      destruct (decide (Command.CmdDir cmd ≠ "")) as [|Hd%dec_stable];
      destruct (Command.Silence cmd); simpl;
      split; try done; intros (? & ? & ? & ?); done.
Qed.

(** ** What the loop has registered, however it ends *)

Lemma cobraCommand_fields config :
  cobra.Use (cobraCommand config) = Name config
  ∧ cobra.Short (cobraCommand config) = Short config
  ∧ cobra.Long (cobraCommand config) = Long config
  ∧ cobra.Run (cobraCommand config) = config.
Proof.
  unfold cobraCommand. destruct (decide (Long config ≠ "")) as [|He]; [done|].
  apply dec_stable in He. simpl. by rewrite He.
Qed.

(** A panic of the loop comes at the first configuration whose name was
    seen before or is reserved; the loop run on the configurations before it
    returns what the root command holds at the panic. *)
Lemma registerConfigs_Panicked_first cmdConfigs allNames rootCmd message r :
  registerConfigs cmdConfigs allNames rootCmd = Panicked message r →
  ∃ before config after,
    cmdConfigs = before ++ config :: after
    ∧ registerConfigs before allNames rootCmd = Returned r
    ∧ (((index allNames (Name config) = true
         ∨ Name config ∈ (Name <$> before))
        ∧ message = "Multiple commands have the same name " +:+ Name config)
       ∨ (index allNames (Name config) = false
          ∧ (Name config ∉ (Name <$> before))
          ∧ Name config ∈ ["completion"; "example"; "help"]
          ∧ message = "The command name " +:+ Sprintf_q (Name config)
                      +:+ " is reserved :(")).
Proof.
  revert allNames rootCmd.
  induction cmdConfigs as [|config rest IH]; intros allNames rootCmd; simpl.
  { done. }
  destruct (index allNames (Name config)) eqn:Hseen.
  { intros [= <- <-]. exists [], config, rest.
    split; [done|]. split; [done|]. left. by split; [left|]. }
  destruct (index reservedNames (Name config)) eqn:Hres.
  { intros [= <- <-]. exists [], config, rest.
    apply index_reservedNames in Hres.
    split; [done|]. split; [done|]. right.
    split; [done|]. split; [apply not_elem_of_nil|done]. }
  intros (before & c & after & -> & Hret & Hmsg)%IH.
  exists (config :: before), c, after. split; [done|]. split.
  { simpl. by rewrite Hseen, Hres. }
  rewrite index_insert_true in Hmsg. rewrite fmap_cons, elem_of_cons.
  destruct (decide (Name config = Name c)) as [Heq|Hne].
  - destruct Hmsg as [[_ ->]|(? & _)]; [|done].
    left. split; [|done]. right. by left.
  - destruct Hmsg as [[Hdup ->]|(Hfresh & Hnot & Hreserved & ->)].
    + left. split; [|done]. destruct Hdup; [by left|by right; right].
    + right. repeat split; try done.
      intros [Hsame|Hin]; [by symmetry in Hsame|done].
Qed.

Lemma registerConfigs_Returned_names cmdConfigs rootCmd r :
  registerConfigs cmdConfigs ∅ rootCmd = Returned r →
  r = rootCmd ++ (cobraCommand <$> cmdConfigs)
  ∧ NoDup (Name <$> cmdConfigs)
  ∧ Forall (λ c, Name c ∉ ["completion"; "example"; "help"]) cmdConfigs.
Proof.
  intros (_ & Hnd & Hres & ->)%registerConfigs_Returned.
  repeat split; try done.
  eapply Forall_impl; [exact Hres|]. intros c Hc Hin. simpl in Hc.
  apply index_reservedNames in Hin. congruence.
Qed.

(** The commands that the loop has added when it ends, one way or the
    other. *)
Lemma registerConfigs_added cmdConfigs rootCmd :
  ∃ done,
    done `prefix_of` cmdConfigs
    ∧ rootOf (registerConfigs cmdConfigs ∅ rootCmd)
      = rootCmd ++ (cobraCommand <$> done)
    ∧ NoDup (Name <$> done)
    ∧ Forall (λ c, Name c ∉ ["completion"; "example"; "help"]) done.
Proof.
  destruct (registerConfigs cmdConfigs ∅ rootCmd) as [r|message r] eqn:Hrun.
  - exists cmdConfigs. split; [done|].
    by apply registerConfigs_Returned_names in Hrun as (-> & ? & ?).
  - apply registerConfigs_Panicked_first in Hrun
      as (before & config & after & -> & Hret & _).
    exists before. split; [by eexists|].
    by apply registerConfigs_Returned_names in Hret as (-> & ? & ?).
Qed.

(** X2.  However [ParseAndAddToRoot] ends, the root command keeps the
    sub-commands it had, in their order, and what the call added after them
    are commands with pairwise different names, none of them reserved, each
    built from the configuration its [Run] closure holds. *)
Theorem ParseAndAddToRoot_adds_distinct_names
    (Unmarshal : string → OneTerminalConfig + error) (h : Host)
    (rootCmd : list cobra.Command) :
  ∃ added,
    rootOf (fst (ParseAndAddToRoot Unmarshal h rootCmd)) = rootCmd ++ added
    ∧ NoDup (cobra.Use <$> added)
    ∧ Forall (λ c, cobra.Use c ∉ ["completion"; "example"; "help"]) added
    ∧ Forall (λ c, c = cobraCommand (cobra.Run c)) added.
Proof.
  unfold ParseAndAddToRoot.
  destruct (ParseConfigs Unmarshal h) as [[cmdConfigs|err] h']; simpl.
  - destruct (registerConfigs_added cmdConfigs rootCmd)
      as (done & _ & -> & Hnd & Hres).
    exists (cobraCommand <$> done). split; [done|].
    assert (cobra.Use <$> (cobraCommand <$> done) = Name <$> done) as ->.
    { rewrite <- list_fmap_compose. apply list_fmap_ext.
      intros _ c _. simpl. apply cobraCommand_fields. }
    split; [done|]. split.
    + apply Forall_fmap. eapply Forall_impl; [exact Hres|].
      intros c Hc. simpl. by rewrite (proj1 (cobraCommand_fields c)).
    + apply Forall_fmap, Forall_forall. intros c _. simpl.
      by rewrite (proj2 (proj2 (proj2 (cobraCommand_fields c)))).
  - exists []. rewrite app_nil_r. repeat split; constructor.
Qed.

(** X3.  When [ParseAndAddToRoot] panics, either the configurations could
    not be parsed and the root command is untouched, or the loop stopped at
    the first configuration, in the order [ParseConfigs] gave, whose name
    repeats an earlier one or is reserved.  The commands of the
    configurations before that one are on the root command; the message is
    the one about the same name exactly when the name was seen before, since
    that check comes first, and the one about reserved names otherwise. *)
Theorem ParseAndAddToRoot_panics_at_first_offender
    (Unmarshal : string → OneTerminalConfig + error) (h : Host)
    (rootCmd : list cobra.Command) (message : string)
    (r : list cobra.Command) :
  fst (ParseAndAddToRoot Unmarshal h rootCmd) = Panicked message r →
  (∃ err, fst (ParseConfigs Unmarshal h) = inr err
          ∧ message = "Reading configs " +:+ err ∧ r = rootCmd)
  ∨ (∃ before config after,
       fst (ParseConfigs Unmarshal h) = inl (before ++ config :: after)
       ∧ r = rootCmd ++ (cobraCommand <$> before)
       ∧ NoDup (Name <$> before)
       ∧ Forall (λ c, Name c ∉ ["completion"; "example"; "help"]) before
       ∧ ((Name config ∈ (Name <$> before)
           ∧ message
             = "Multiple commands have the same name " +:+ Name config)
          ∨ ((Name config ∉ (Name <$> before))
             ∧ Name config ∈ ["completion"; "example"; "help"]
             ∧ message = "The command name " +:+ Sprintf_q (Name config)
                         +:+ " is reserved :("))).
Proof.
  unfold ParseAndAddToRoot.
  destruct (ParseConfigs Unmarshal h) as [[cmdConfigs|err] h']; simpl.
  - intros (before & config & after & -> & Hret & Hmsg)
      %registerConfigs_Panicked_first.
    right. exists before, config, after.
    apply registerConfigs_Returned_names in Hret as (-> & Hnd & Hres).
    repeat split; try done.
    destruct Hmsg as [[[Hseen|Hin] ->]|(_ & Hnot & Hreserved & ->)].
    + by rewrite index_empty in Hseen.
    + by left.
    + by right.
  - intros [= <- <-]. left. by exists err.
Qed.

Lemma ParseAndAddToRoot_panics_at_first_offender_witness :
  let h := hostWithConfigs [("a.yml", "db"); ("b.yml", "help");
                            ("c.yml", "db")] in
  let db := {| Name := "db"; Shell := "bash"; Short := ""; Long := "";
               Commands := [] |} in
  let message := "The command name " +:+ Sprintf_q "help"
                 +:+ " is reserved :(" in
  fst (ParseAndAddToRoot unmarshalName h []) = Panicked message [cobraCommand db]
  ∧ ((∃ err, fst (ParseConfigs unmarshalName h) = inr err
             ∧ message = "Reading configs " +:+ err
             ∧ [cobraCommand db] = [])
     ∨ (∃ before config after,
          fst (ParseConfigs unmarshalName h) = inl (before ++ config :: after)
          ∧ [cobraCommand db] = [] ++ (cobraCommand <$> before)
          ∧ NoDup (Name <$> before)
          ∧ Forall (λ c, Name c ∉ ["completion"; "example"; "help"]) before
          ∧ ((Name config ∈ (Name <$> before)
              ∧ message
                = "Multiple commands have the same name " +:+ Name config)
             ∨ ((Name config ∉ (Name <$> before))
                ∧ Name config ∈ ["completion"; "example"; "help"]
                ∧ message = "The command name " +:+ Sprintf_q (Name config)
                            +:+ " is reserved :(")))).
Proof.
  intros h db message.
  assert (fst (ParseAndAddToRoot unmarshalName h [])
          = Panicked message [cobraCommand db]) as Hpanic.
  { vm_compute. reflexivity. }
  split; [exact Hpanic|].
  exact (ParseAndAddToRoot_panics_at_first_offender _ _ _ _ _ Hpanic).
Defined.

(** ** What the calls do to the host *)



Lemma ParseConfigs_host Unmarshal h :
  snd (ParseConfigs Unmarshal h) = snd (GetConfigDir h).
Proof.
  unfold ParseConfigs.
  destruct (GetConfigDir h) as [[dir [err|]] h']; [done|].
  by destruct (ioutil.ReadDir dir h').
Qed.

Lemma ParseAndAddToRoot_host Unmarshal h rootCmd :
  snd (ParseAndAddToRoot Unmarshal h rootCmd) = snd (GetConfigDir h).
Proof.
  unfold ParseAndAddToRoot. rewrite <- (ParseConfigs_host Unmarshal).
  by destruct (ParseConfigs Unmarshal h) as [[]].
Qed.


(** ** Calling twice *)

Lemma UserHomeDir_same_env h h' :
  environ h' = environ h → os.UserHomeDir h' = os.UserHomeDir h.
Proof. unfold os.UserHomeDir, os.Getenv. by intros ->. Qed.

Lemma GetConfigDir_ok h dir h' :
  GetConfigDir h = ((dir, None), h') →
  ∃ homedir,
    os.UserHomeDir h = inl homedir
    ∧ dir = filepath.Join [homedir; ".config/oneterminal"]
    ∧ environ h' = environ h ∧ cwd h' = cwd h
    ∧ os.IsDir h' dir = true
    ∧ files h ⊆ files h'.
Proof.
  unfold GetConfigDir.
  destruct (os.UserHomeDir h) as [homedir|e]; [|done]. cbv zeta.
  destruct (os.MkdirAll _ os.ModePerm h) as [h1 [err|]] eqn:Hmk; [done|].
  intros [= <- <-]. exists homedir.
  destruct (MkdirAll_ok _ _ _ _ Hmk) as (Hdir & _ & Hsub).
  apply MkdirAll_inv in Hmk as (Henv & Hcwd & _).
  by repeat split.
Qed.

Lemma GetConfigDir_existing h homedir :
  os.UserHomeDir h = inl homedir →
  os.IsDir h (filepath.Join [homedir; ".config/oneterminal"]) = true →
  GetConfigDir h
  = ((filepath.Join [homedir; ".config/oneterminal"], None), h).
Proof.
  intros Hhome Hdir. unfold GetConfigDir. rewrite Hhome. cbv zeta.
  by rewrite (MkdirAll_existing _ _ _ Hdir).
Qed.

(** X5.  Once [GetConfigDir] has returned a path, calling it again returns
    the same path and changes nothing more; so a second
    [ParseAndAddToRoot] on the host that the first one left reads the same
    configurations, ends the same way and leaves the host as it is. *)
Theorem GetConfigDir_again
    (Unmarshal : string → OneTerminalConfig + error) (h h' : Host)
    (dir : string) (rootCmd : list cobra.Command) :
  GetConfigDir h = ((dir, None), h') →
  GetConfigDir h' = ((dir, None), h')
  ∧ ParseConfigs Unmarshal h' = ParseConfigs Unmarshal h
  ∧ ParseAndAddToRoot Unmarshal h' rootCmd
    = ParseAndAddToRoot Unmarshal h rootCmd.
Proof.
  intros Hfirst.
  destruct (GetConfigDir_ok _ _ _ Hfirst)
    as (homedir & Hhome & -> & Henv & Hcwd & Hdir & _).
  assert (GetConfigDir h'
          = ((filepath.Join [homedir; ".config/oneterminal"], None), h'))
    as Hsecond.
  { apply GetConfigDir_existing; [|done].
    by rewrite (UserHomeDir_same_env h h'). }
  split; [done|].
  assert (ParseConfigs Unmarshal h' = ParseConfigs Unmarshal h) as Hparse.
  { unfold ParseConfigs. by rewrite Hfirst, Hsecond. }
  split; [done|]. unfold ParseAndAddToRoot. by rewrite Hparse.
Qed.

Lemma GetConfigDir_again_witness :
  let h' := snd (GetConfigDir sampleHost) in
  GetConfigDir sampleHost = (("/home/u/.config/oneterminal", None), h')
  ∧ GetConfigDir h' = (("/home/u/.config/oneterminal", None), h')
  ∧ ParseConfigs unmarshalName h' = ParseConfigs unmarshalName sampleHost
  ∧ ParseAndAddToRoot unmarshalName h' []
    = ParseAndAddToRoot unmarshalName sampleHost [].
Proof.
  intros h'.
  assert (GetConfigDir sampleHost
          = (("/home/u/.config/oneterminal", None), h')) as Hfirst.
  { assert (fst (GetConfigDir sampleHost)
            = ("/home/u/.config/oneterminal", None)) as Hfst
      by (vm_compute; reflexivity).
    unfold h'. destruct (GetConfigDir sampleHost) as [res h1].
    simpl in *. by rewrite Hfst. }
  split; [exact Hfirst|].
  exact (GetConfigDir_again unmarshalName _ _ _ [] Hfirst).
Defined.

(** ** What ParseConfigs reads *)

Lemma readConfigs_inl Unmarshal dir names h acc cfgs :
  readConfigs Unmarshal dir names h acc = inl cfgs ↔
  ∃ new, cfgs = acc ++ new ∧ Forall2 (readsAs Unmarshal dir h) names new.
Proof.
  revert acc. induction names as [|name names IH]; intros acc; simpl.
  - split.
    + intros [= <-]. exists []. rewrite app_nil_r. split; [done|constructor].
    + intros (new & -> & Hnew). apply Forall2_nil_inv_l in Hnew as ->.
      by rewrite app_nil_r.
  - destruct (ioutil.ReadFile (dir +:+ "/" +:+ name) h) as [bytes|e] eqn:Hread.
    + destruct (Unmarshal bytes) as [cfg|e] eqn:Hcfg.
      * rewrite IH. split.
        -- intros (new & -> & Hnew). exists (cfg :: new).
           rewrite <- app_assoc. split; [done|].
           constructor; [|done]. by exists bytes.
        -- intros (new & -> & Hnew).
           apply Forall2_cons_inv_l in Hnew
             as (cfg' & new' & (bytes' & Hread' & Hcfg') & Hnew' & ->).
           exists new'. rewrite <- app_assoc.
           rewrite Hread in Hread'. simplify_eq.
           assert (cfg' = cfg) as -> by congruence. by split.
      * split; [done|]. intros (new & -> & Hnew).
        apply Forall2_cons_inv_l in Hnew
          as (cfg' & new' & (bytes' & Hread' & Hcfg') & _ & _).
        rewrite Hread in Hread'. simplify_eq. congruence.
    + split; [done|]. intros (new & -> & Hnew).
      apply Forall2_cons_inv_l in Hnew
        as (cfg' & new' & (bytes' & Hread' & _) & _ & _).
      by rewrite Hread in Hread'.
Qed.

Lemma readConfigs_inr Unmarshal dir names h acc err :
  readConfigs Unmarshal dir names h acc = inr err →
  ∃ before name after read,
    names = before ++ name :: after
    ∧ Forall2 (readsAs Unmarshal dir h) before read
    ∧ ((∃ e, ioutil.ReadFile (dir +:+ "/" +:+ name) h = inr e
             ∧ err = Wrap e ("reading file " +:+ dir +:+ "/" +:+ name))
       ∨ (∃ bytes e,
            ioutil.ReadFile (dir +:+ "/" +:+ name) h = inl bytes
            ∧ Unmarshal bytes = inr e
            ∧ err = Wrap e ("unmarshalling file " +:+ dir +:+ "/" +:+ name))).
Proof.
  revert acc. induction names as [|name names IH]; intros acc; simpl.
  { done. }
  destruct (ioutil.ReadFile (dir +:+ "/" +:+ name) h) as [bytes|e] eqn:Hread.
  - destruct (Unmarshal bytes) as [cfg|e] eqn:Hcfg.
    + intros (before & name' & after & read & -> & Hread' & Herr)%IH.
      exists (name :: before), name', after, (cfg :: read).
      split; [done|]. split; [|done]. constructor; [|done]. by exists bytes.
    + intros [= <-]. exists [], name, names, [].
      split; [done|]. split; [constructor|]. right. by exists bytes, e.
  - intros [= <-]. exists [], name, names, [].
    split; [done|]. split; [constructor|]. left. by exists e.
Qed.

(** X6.  When [ParseConfigs] succeeds it has one configuration for every
    entry of the config directory, whatever the entry's name, in the order of
    the names, each the result of [Unmarshal] on the bytes of that entry.
    When it fails, the error is that of [GetConfigDir], or that of reading
    the directory, or comes from the first entry, in the order of the names,
    that cannot be read or whose bytes do not unmarshal, and names that
    file. *)
Theorem ParseConfigs_reads_every_entry
    (Unmarshal : string → OneTerminalConfig + error) (h : Host) :
  match ParseConfigs Unmarshal h with
  | (inl cmdConfigs, h') =>
      ∃ dir names,
        GetConfigDir h = ((dir, None), h')
        ∧ ioutil.ReadDir dir h' = inl names
        ∧ Sorted String.le names
        ∧ names ≡ₚ ioutil.entryNames (files h') (os.placeOf h' dir)
        ∧ Forall2 (readsAs Unmarshal dir h') names cmdConfigs
  | (inr err, h') =>
      (∃ path, GetConfigDir h = ((path, Some err), h'))
      ∨ (∃ dir e,
           GetConfigDir h = ((dir, None), h')
           ∧ ioutil.ReadDir dir h' = inr e
           ∧ err = Wrap e "reading from config directory")
      ∨ (∃ dir before name after read,
           GetConfigDir h = ((dir, None), h')
           ∧ ioutil.ReadDir dir h' = inl (before ++ name :: after)
           ∧ Forall2 (readsAs Unmarshal dir h') before read
           ∧ ((∃ e, ioutil.ReadFile (dir +:+ "/" +:+ name) h' = inr e
                    ∧ err = Wrap e ("reading file " +:+ dir +:+ "/"
                                    +:+ name))
              ∨ (∃ bytes e,
                   ioutil.ReadFile (dir +:+ "/" +:+ name) h' = inl bytes
                   ∧ Unmarshal bytes = inr e
                   ∧ err = Wrap e ("unmarshalling file " +:+ dir +:+ "/"
                                   +:+ name))))
  end.
Proof.
  unfold ParseConfigs.
  destruct (GetConfigDir h) as [[dir [err|]] h'] eqn:Hdir.
  { left. by exists dir. }
  destruct (ioutil.ReadDir dir h') as [names|e] eqn:Hnames.
  - destruct (readConfigs Unmarshal dir names h' []) as [cfgs|err] eqn:Hread.
    + apply readConfigs_inl in Hread as (new & -> & Hnew).
      exists dir, names. split; [done|]. split; [done|].
      unfold ioutil.ReadDir in Hnames.
      destruct (os.Stat _ _) as [[w|]|]; simplify_eq.
      split; [apply (Sorted_merge_sort _)|].
      split; [apply merge_sort_Permutation|done].
    + right. right.
      apply readConfigs_inr in Hread
        as (before & name & after & read & -> & Hbefore & Herr).
      by exists dir, before, name, after, read.
  - right. left. by exists dir, e.
Qed.

(** ** Paths and places *)

Section paths.
Import filepath.
Implicit Types (a b e name path : string) (elems kept : list string).

Lemma filter_all {A} (P : A → Prop) `{∀ x, Decision (P x)} (l : list A) :
  Forall P l → filter P l = l.
Proof.
  induction 1 as [|x l Hx Hl IH]; [done|].
  by rewrite filter_cons_True, IH.
Qed.

Lemma splitElems_cons path : ∃ x xs, splitElems path = x :: xs.
Proof.
  destruct path as [|c rest]; simpl; [by eexists _, _|].
  destruct (decide (c = "/"%char)); [by eexists _, _|].
  destruct (splitElems rest); by eexists _, _.
Qed.

(** The elements of two paths joined by a separator are those of the first
    and then those of the second. *)
Lemma splitElems_join a b :
  splitElems (a +:+ "/" +:+ b) = splitElems a ++ splitElems b.
Proof.
  induction a as [|c a IH].
  - rewrite string_app_nil_l, string_app_cons. simpl. done.
  - rewrite string_app_cons. simpl.
    destruct (decide (c = "/"%char)); [by rewrite IH|].
    rewrite IH. by destruct (splitElems_cons a) as (x & xs & ->).
Qed.

Lemma splitElems_noSlash e : noSlash e → splitElems e = [e].
Proof.
  unfold noSlash. induction e as [|c e IH]; [done|]. simpl.
  destruct (decide (c = "/"%char)); [done|].
  destruct (os.IndexByte e "/"); [done|]. intros _. by rewrite IH.
Qed.

Lemma splitElems_all_noSlash path : Forall noSlash (splitElems path).
Proof.
  induction path as [|c rest IH]; simpl.
  - by repeat constructor.
  - destruct (decide (c = "/"%char)).
    + constructor; [done|exact IH].
    + destruct (splitElems rest) as [|x xs].
      * repeat constructor. unfold noSlash. simpl.
        by rewrite decide_False.
      * apply Forall_cons in IH as [Hx Hxs]. constructor; [|done].
        unfold noSlash in *. simpl. rewrite decide_False by done.
        by rewrite Hx.
Qed.

Lemma splitElems_joinElems elems :
  elems ≠ [] → Forall noSlash elems → splitElems (joinElems elems) = elems.
Proof.
  induction elems as [|e [|e' elems] IH]; intros Hne Hall; [done|..].
  - apply Forall_cons in Hall as [He _]. by apply splitElems_noSlash.
  - apply Forall_cons in Hall as [He Hall].
    change (joinElems (e :: e' :: elems))
      with (e +:+ "/" +:+ joinElems (e' :: elems)).
    rewrite splitElems_join, splitElems_noSlash, IH by done. done.
Qed.

Lemma pathElems_joinElems elems :
  Forall (λ e, e ≠ "" ∧ noSlash e) elems →
  os.pathElems (joinElems elems) = elems.
Proof.
  intros Hall. unfold os.pathElems.
  destruct elems as [|e elems]; [done|].
  rewrite splitElems_joinElems; [|done|].
  - apply filter_all. eapply Forall_impl; [exact Hall|]. by intros ? [? ?].
  - eapply Forall_impl; [exact Hall|]. by intros ? [? ?].
Qed.

Lemma pathElems_join a b :
  os.pathElems (a +:+ "/" +:+ b) = os.pathElems a ++ os.pathElems b.
Proof. unfold os.pathElems. by rewrite splitElems_join, filter_app. Qed.

Lemma pathElems_proper name : properElem name → os.pathElems name = [name].
Proof.
  intros (Hne & _ & _ & Hslash). unfold os.pathElems.
  rewrite splitElems_noSlash by done. by rewrite filter_cons_True.
Qed.

Lemma rooted_join a b : a ≠ "" → rooted (a +:+ "/" +:+ b) = rooted a.
Proof. by destruct a. Qed.

(** An empty element changes nothing. *)
Lemma foldl_cleanStep_filter isRooted kept elems :
  foldl (cleanStep isRooted) kept (filter (λ e, e ≠ "") elems)
  = foldl (cleanStep isRooted) kept elems.
Proof.
  revert kept. induction elems as [|e elems IH]; intros kept; [done|].
  destruct (decide (e = "")) as [->|Hne].
  - rewrite filter_cons_False by (intros ?; done). simpl. by rewrite IH.
  - rewrite filter_cons_True by done. simpl. by rewrite IH.
Qed.

Lemma cleanStep_proper isRooted kept name :
  properElem name → cleanStep isRooted kept name = name :: kept.
Proof.
  intros (Hne & Hdot & Hdots & _). unfold cleanStep.
  rewrite decide_False by (intros [?|?]; done).
  by rewrite decide_False.
Qed.

(** The place of a path with one more proper name at its end. *)
Lemma place_snoc h isRooted elems name :
  properElem name →
  os.place h isRooted (elems ++ [name]) = os.place h isRooted elems ++ [name].
Proof.
  intros Hname. unfold os.place, cleanElems.
  destruct isRooted.
  - by rewrite foldl_app; simpl; rewrite cleanStep_proper.
  - by rewrite app_assoc, foldl_app; simpl; rewrite cleanStep_proper.
Qed.

(** The place of an entry [name] of the directory at path [a]. *)
Lemma placeOf_child h a name :
  a ≠ "" → properElem name →
  os.placeOf h (a +:+ "/" +:+ name) = os.placeOf h a ++ [name].
Proof.
  intros Ha Hname. unfold os.placeOf.
  rewrite rooted_join, pathElems_join, (pathElems_proper name) by done.
  by apply place_snoc.
Qed.

(** What [cleanStep] keeps is never empty and never a dot; what it keeps for
    a rooted path is a proper name, and no element it keeps has a separator
    when the elements it gets have none. *)
Lemma cleanStep_kept isRooted kept elems :
  Forall (λ e, e ≠ "" ∧ e ≠ ".") kept →
  Forall (λ e, e ≠ "" ∧ e ≠ ".") (foldl (cleanStep isRooted) kept elems).
Proof.
  revert kept. induction elems as [|e elems IH]; intros kept Hkept; [done|].
  simpl. apply IH. unfold cleanStep.
  destruct (decide (e = "" ∨ e = ".")) as [|Hne]; [done|].
  destruct (decide (e = "..")) as [->|].
  - destruct kept as [|top kept']; [by destruct isRooted; repeat constructor|].
    destruct (decide (top = "..")); [by constructor|].
    by apply Forall_cons in Hkept as [_ ?].
  - constructor; [|done]. split; intros ->; apply Hne; auto.
Qed.

Lemma cleanStep_kept_proper kept elems :
  Forall noSlash elems → Forall properElem kept →
  Forall properElem (foldl (cleanStep true) kept elems).
Proof.
  revert kept. induction elems as [|e elems IH]; intros kept Helems Hkept;
    [done|].
  apply Forall_cons in Helems as [He Helems].
  simpl. apply IH; [done|]. unfold cleanStep.
  destruct (decide (e = "" ∨ e = ".")) as [|Hne]; [done|].
  destruct (decide (e = "..")) as [->|Hdots].
  - destruct kept as [|top kept']; [done|].
    apply Forall_cons in Hkept as [(_ & _ & Htop & _) Hkept'].
    by rewrite decide_False.
  - constructor; [|done]. repeat split; try done; intros ->; apply Hne; auto.
Qed.

Lemma cleanStep_kept_noSlash isRooted kept elems :
  Forall noSlash elems → Forall noSlash kept →
  Forall noSlash (foldl (cleanStep isRooted) kept elems).
Proof.
  revert kept. induction elems as [|e elems IH]; intros kept Helems Hkept;
    [done|].
  apply Forall_cons in Helems as [He Helems].
  simpl. apply IH; [done|]. unfold cleanStep.
  destruct (decide (e = "" ∨ e = ".")) as [|Hne]; [done|].
  destruct (decide (e = "..")) as [->|Hdots].
  - destruct kept as [|top kept']; [by destruct isRooted; repeat constructor|].
    destruct (decide (top = "..")); [by constructor|].
    by apply Forall_cons in Hkept as [_ ?].
  - by constructor.
Qed.

(** Proper names are all kept, in their order. *)
Lemma foldl_cleanStep_proper isRooted kept elems :
  Forall properElem elems →
  foldl (cleanStep isRooted) kept elems = rev elems ++ kept.
Proof.
  revert kept. induction elems as [|e elems IH]; intros kept Hall; [done|].
  apply Forall_cons in Hall as [He Hall]. simpl.
  rewrite cleanStep_proper, IH by done. by rewrite <- app_assoc.
Qed.

Lemma cleanStep_skip isRooted kept e :
  e = "" ∨ e = "." → cleanStep isRooted kept e = kept.
Proof. intros He. unfold cleanStep. by rewrite decide_True. Qed.

Lemma cleanStep_push isRooted kept e :
  e ≠ "" → e ≠ "." → e ≠ ".." → cleanStep isRooted kept e = e :: kept.
Proof.
  intros Hne Hdot Hdots. unfold cleanStep.
  rewrite decide_False by (intros [?|?]; done).
  by rewrite decide_False.
Qed.

Lemma cleanStep_up isRooted kept top :
  top ≠ ".." → cleanStep isRooted (top :: kept) ".." = kept.
Proof.
  intros Htop. unfold cleanStep.
  rewrite decide_False by (intros [?|?]; done).
  rewrite decide_True by done. by rewrite decide_False.
Qed.

Lemma cleanStep_dots_kept kept :
  cleanStep false (".." :: kept) ".." = ".." :: ".." :: kept.
Proof. done. Qed.

(** Walking the elements of a path from a place, with [..] going up, ends
    where walking the cleaned elements of the path ends. *)
Lemma foldl_cleanStep_cleaned kept elems :
  foldl (cleanStep true) kept elems
  = foldl (cleanStep true) kept (cleanElems false elems).
Proof.
  unfold cleanElems.
  induction elems as [|e elems IH] using rev_ind; [done|].
  rewrite !foldl_app. simpl. rewrite IH.
  pose proof (cleanStep_kept false [] elems (Forall_nil_2 _)) as Hkept.
  set (T := foldl (cleanStep false) [] elems) in *.
  destruct (decide (e = "" ∨ e = ".")) as [He|He].
  { by rewrite !cleanStep_skip. }
  destruct (decide (e = "..")) as [->|Hdots].
  - destruct T as [|top T']; [done|].
    destruct (decide (top = "..")) as [->|Htop].
    + rewrite cleanStep_dots_kept. simpl. by rewrite !foldl_app.
    + apply Forall_cons in Hkept as [[Hne Hdot] _].
      rewrite (cleanStep_up false) by done.
      simpl. rewrite foldl_app. simpl.
      rewrite (cleanStep_push true _ top) by done. by rewrite cleanStep_up.
  - rewrite (cleanStep_push false) by (try done; intros ->; apply He; auto).
    simpl. by rewrite foldl_app.
Qed.

Lemma joinElems_nil elems :
  Forall (λ e, e ≠ "") elems → joinElems elems = "" → elems = [].
Proof.
  destruct elems as [|e [|e' elems]]; [done|..].
  - intros [He _]%Forall_cons. simpl. by intros ->.
  - intros [He _]%Forall_cons.
    change (joinElems (e :: e' :: elems))
      with (e +:+ "/" +:+ joinElems (e' :: elems)).
    by destruct e.
Qed.

Lemma rooted_joinElems elems :
  Forall (λ e, e ≠ "" ∧ noSlash e) elems → rooted (joinElems elems) = false.
Proof.
  destruct elems as [|e elems]; [done|].
  intros [[Hne Hslash] _]%Forall_cons.
  assert (rooted e = false) as He.
  { destruct e as [|c e]; [done|]. unfold noSlash in Hslash. simpl in *.
    destruct (decide (c = "/"%char)); [done|].
    by apply bool_decide_eq_false. }
  destruct elems as [|e' elems]; [done|].
  change (joinElems (e :: e' :: elems))
    with (e +:+ "/" +:+ joinElems (e' :: elems)).
  by rewrite rooted_join.
Qed.

Lemma rooted_slash path : rooted ("/" +:+ path) = true.
Proof. done. Qed.

Lemma pathElems_slash path : os.pathElems ("/" +:+ path) = os.pathElems path.
Proof.
  unfold os.pathElems. rewrite string_app_cons, string_app_nil_l. simpl.
  by rewrite filter_cons_False by (intros ?; done).
Qed.

Lemma Clean_not_empty path : Clean path ≠ "".
Proof.
  unfold Clean. case_decide; [done|]. cbv zeta.
  destruct (rooted path); [done|]. by case_decide.
Qed.

(** [filepath.Clean] changes the text of a path and not the place it
    names. *)
Lemma placeOf_Clean h path : os.placeOf h (Clean path) = os.placeOf h path.
Proof.
  assert (Hdot : os.placeOf h "." = os.place h false []).
  { unfold os.placeOf, os.place, cleanElems. simpl.
    rewrite !foldl_app. simpl. unfold cleanStep at 1.
    by rewrite decide_True by auto. }
  unfold Clean. destruct (decide (path = "")) as [->|Hne]; [exact Hdot|].
  cbv zeta.
  pose proof (splitElems_all_noSlash path) as Hsplit.
  set (C := cleanElems (rooted path) (splitElems path)).
  assert (Forall (λ e, e ≠ "" ∧ noSlash e) C) as HC.
  { unfold C, cleanElems. apply Forall_rev.
    pose proof (cleanStep_kept (rooted path) [] (splitElems path)
                  (Forall_nil_2 _)) as H1.
    pose proof (cleanStep_kept_noSlash (rooted path) [] (splitElems path)
                  Hsplit (Forall_nil_2 _)) as H2.
    apply Forall_forall. intros e He.
    rewrite Forall_forall in H1, H2. split; [by apply H1|by apply H2]. }
  destruct (rooted path) eqn:Hrooted.
  - unfold os.placeOf.
    rewrite pathElems_slash, rooted_slash, pathElems_joinElems by done.
    rewrite Hrooted. unfold os.place, cleanElems, os.pathElems.
    rewrite foldl_cleanStep_filter. f_equal.
    assert (Forall properElem C) as Hproper.
    { unfold C, cleanElems. apply Forall_rev.
      apply cleanStep_kept_proper; [done|constructor]. }
    rewrite foldl_cleanStep_proper by done.
    unfold C, cleanElems. by rewrite rev_involutive, app_nil_r.
  - assert (os.placeOf h path = os.place h false C) as ->.
    { unfold os.placeOf, os.place, cleanElems, os.pathElems.
      rewrite Hrooted. f_equal. rewrite !foldl_app.
      by rewrite foldl_cleanStep_filter, foldl_cleanStep_cleaned. }
    destruct (decide (joinElems C = "")) as [Hempty|Hfull].
    + rewrite Hdot. f_equal. symmetry. apply joinElems_nil; [|done].
      eapply Forall_impl; [exact HC|]. by intros ? [? ?].
    + unfold os.placeOf.
      by rewrite rooted_joinElems, pathElems_joinElems.
Qed.
End paths.

(** ** The config directory in the file tree *)

Lemma UserHomeDir_not_empty h homedir :
  os.UserHomeDir h = inl homedir → homedir ≠ "".
Proof.
  unfold os.UserHomeDir.
  destruct (decide (os.Getenv h "HOME" = "")); [done|]. by intros [= <-].
Qed.

Lemma Join_pair a b :
  a ≠ "" → filepath.Join [a; b] = filepath.Clean (a +:+ "/" +:+ b).
Proof. intros Ha. simpl. by rewrite decide_False. Qed.

Lemma Join_not_empty a b : a ≠ "" → filepath.Join [a; b] ≠ "".
Proof. intros Ha. rewrite Join_pair by done. apply Clean_not_empty. Qed.

(** [filepath.Join] of a directory and a proper name is the place of that
    entry of the directory. *)
Lemma placeOf_Join h a name :
  a ≠ "" → properElem name →
  os.placeOf h (filepath.Join [a; name]) = os.placeOf h a ++ [name].
Proof.
  intros Ha Hname.
  by rewrite Join_pair, placeOf_Clean, placeOf_child.
Qed.

Lemma placeOf_configDir h homedir :
  homedir ≠ "" →
  os.placeOf h (filepath.Join [homedir; ".config/oneterminal"])
  = configPlace h homedir.
Proof.
  intros Hhome. rewrite Join_pair, placeOf_Clean by done.
  unfold configPlace, os.placeOf.
  rewrite rooted_join, pathElems_join by done.
  change (os.pathElems ".config/oneterminal") with [".config"; "oneterminal"].
  change [".config"; "oneterminal"] with ([".config"] ++ ["oneterminal"]).
  rewrite !app_assoc.
  rewrite !place_snoc; [done|..]; by repeat split.
Qed.

Lemma walk_Some fs from elems node :
  os.walk fs from elems = Some node → fs !! (from ++ elems) = Some node.
Proof.
  revert from. induction elems as [|e elems IH]; intros from; simpl.
  - by rewrite app_nil_r.
  - destruct (fs !! from) as [[w|]|]; [|done..].
    intros Hwalk%IH. by rewrite <- app_assoc in Hwalk.
Qed.

(** What a successful [GetConfigDir] tells: the home directory is known, the
    path it returns is not empty and names the config place, and a
    directory is there. *)
Lemma GetConfigDir_place h dir h' :
  GetConfigDir h = ((dir, None), h') →
  ∃ homedir w,
    os.UserHomeDir h = inl homedir
    ∧ dir = filepath.Join [homedir; ".config/oneterminal"]
    ∧ dir ≠ ""
    ∧ environ h' = environ h ∧ cwd h' = cwd h
    ∧ os.placeOf h' dir = configPlace h homedir
    ∧ os.Stat (files h') (configPlace h homedir) = Some (Dir w).
Proof.
  intros Hdir.
  destruct (GetConfigDir_ok _ _ _ Hdir)
    as (homedir & Hhome & -> & Henv & Hcwd & HisDir & _).
  pose proof (UserHomeDir_not_empty _ _ Hhome) as Hne.
  assert (os.placeOf h' (filepath.Join [homedir; ".config/oneterminal"])
          = configPlace h homedir) as Hplace.
  { rewrite (placeOf_same_env h h') by done. by apply placeOf_configDir. }
  unfold os.IsDir in HisDir. rewrite Hplace in HisDir.
  destruct (os.Stat (files h') (configPlace h homedir)) as [[w|]|] eqn:Hstat;
    [|done..].
  exists homedir, w. split; [done|]. split; [done|].
  split; [by apply Join_not_empty|]. done.
Qed.

(** The names of the entries of a directory are the last elements of the
    places one below it. *)
Lemma elem_of_entryNames fs dir name :
  name ∈ ioutil.entryNames fs dir ↔ ∃ node, fs !! (dir ++ [name]) = Some node.
Proof.
  unfold ioutil.entryNames. rewrite list_elem_of_omap. split.
  - intros ([key node] & Hin & Hname). simpl in Hname.
    destruct (decide (key ≠ [] ∧ removelast key = dir)) as [[Hne <-]|];
      [|done].
    injection Hname as <-. exists node.
    apply elem_of_map_to_list in Hin.
    by rewrite <- app_removelast_last.
  - intros [node Hnode]. exists (dir ++ [name], node).
    split; [by apply elem_of_map_to_list|]. simpl.
    rewrite decide_True.
    + by rewrite last_last.
    + split; [by destruct dir|]. by rewrite removelast_last.
Qed.

(** Reading and writing the entry [name] of a directory that is there. *)
Lemma Stat_child h dir name w :
  dir ≠ "" → properElem name →
  os.Stat (files h) (os.placeOf h dir) = Some (Dir w) →
  os.placeOf h (dir +:+ "/" +:+ name) = os.placeOf h dir ++ [name]
  ∧ os.Stat (files h) (os.placeOf h (dir +:+ "/" +:+ name))
    = files h !! (os.placeOf h dir ++ [name]).
Proof.
  intros Hdir Hname Hstat. rewrite placeOf_child by done.
  split; [done|]. by rewrite Stat_snoc, Hstat.
Qed.

Lemma ReadFile_child h dir name w bytes :
  dir ≠ "" → properElem name →
  os.Stat (files h) (os.placeOf h dir) = Some (Dir w) →
  ioutil.ReadFile (dir +:+ "/" +:+ name) h = inl bytes ↔
  files h !! (os.placeOf h dir ++ [name]) = Some (File bytes).
Proof.
  intros Hdir Hname Hstat. unfold ioutil.ReadFile.
  destruct (Stat_child h dir name w Hdir Hname Hstat) as [_ ->].
  destruct (files h !! _) as [[w'|content]|]; split; intros H;
    by simplify_eq.
Qed.

(** [ioutil.WriteFile] on a path that names the place [key] one below a
    directory that is there: the write succeeds when a regular file is at
    the place, or when nothing is there and the directory can be written,
    and then the tree has the data at the place and is as before
    elsewhere.  A write that fails leaves the host as it was. *)
Lemma WriteFile_at h filename data perm parent name w :
  os.placeOf h filename = parent ++ [name] →
  os.Stat (files h) parent = Some (Dir w) →
  match ioutil.WriteFile filename data perm h with
  | (h', None) =>
      environ h' = environ h ∧ cwd h' = cwd h
      ∧ files h' = <[parent ++ [name] := File data]> (files h)
      ∧ ((∃ old, files h !! (parent ++ [name]) = Some (File old))
         ∨ (files h !! (parent ++ [name]) = None ∧ w = true))
  | (h', Some err) =>
      h' = h
      ∧ ((∃ w', files h !! (parent ++ [name]) = Some (Dir w')
                ∧ err = os.PathError "open" filename "is a directory")
         ∨ (files h !! (parent ++ [name]) = None ∧ w = false
            ∧ err = os.PathError "open" filename os.EACCES))
  end.
Proof.
  intros Hplace Hstat. unfold ioutil.WriteFile. rewrite Hplace.
  rewrite Stat_snoc, Hstat, removelast_last, Hstat.
  destruct (files h !! (parent ++ [name])) as [[w'|old]|] eqn:Hentry.
  - split; [done|]. left. by exists w'.
  - do 3 (split; [done|]). left. by exists old.
  - destruct w.
    + do 3 (split; [done|]). by right.
    + split; [done|]. by right.
Qed.

Lemma Stat_insert_child fs parent name node w :
  os.Stat fs parent = Some (Dir w) →
  os.Stat (<[parent ++ [name] := node]> fs) parent = Some (Dir w).
Proof.
  intros Hstat. unfold os.Stat. rewrite walk_insert_longer; [done|].
  simpl. rewrite length_app. simpl. lia.
Qed.

(** ** The entries of the config directory *)

Lemma ParseConfigs_inl Unmarshal h cmdConfigs :
  fst (ParseConfigs Unmarshal h) = inl cmdConfigs →
  ∃ dir names,
    GetConfigDir h = ((dir, None), snd (ParseConfigs Unmarshal h))
    ∧ ioutil.ReadDir dir (snd (ParseConfigs Unmarshal h)) = inl names
    ∧ names ≡ₚ ioutil.entryNames (files (snd (ParseConfigs Unmarshal h)))
                 (os.placeOf (snd (ParseConfigs Unmarshal h)) dir)
    ∧ Forall2 (readsAs Unmarshal dir (snd (ParseConfigs Unmarshal h)))
        names cmdConfigs.
Proof.
  unfold ParseConfigs.
  destruct (GetConfigDir h) as [[dir [err|]] h'] eqn:Hdir; [done|].
  destruct (ioutil.ReadDir dir h') as [names|e] eqn:Hnames; [|done].
  simpl. intros Hread.
  apply readConfigs_inl in Hread as (new & -> & Hnew).
  exists dir, names. do 2 (split; [done|]).
  unfold ioutil.ReadDir in Hnames.
  destruct (os.Stat _ _) as [[w|]|]; simplify_eq.
  split; [apply merge_sort_Permutation|done].
Qed.

(** X7.  When [ParseConfigs] succeeds, the config directory holds nothing
    but configurations: there are as many configurations as the directory
    has entries, and every entry with a proper name is a regular file (not
    a directory) whose bytes [Unmarshal] reads as one of the configurations
    returned. *)
Theorem ParseConfigs_entries_are_configs
    (Unmarshal : string → OneTerminalConfig + error) (h : Host)
    (cmdConfigs : list OneTerminalConfig) :
  fst (ParseConfigs Unmarshal h) = inl cmdConfigs →
  ∃ homedir,
    os.UserHomeDir h = inl homedir
    ∧ length cmdConfigs
      = length (ioutil.entryNames (files (snd (ParseConfigs Unmarshal h)))
                  (configPlace h homedir))
    ∧ ∀ name node,
        properElem name →
        files (snd (ParseConfigs Unmarshal h))
          !! (configPlace h homedir ++ [name]) = Some node →
        ∃ bytes cfg,
          node = File bytes ∧ Unmarshal bytes = inl cfg ∧ cfg ∈ cmdConfigs.
Proof.
  intros Hok.
  destruct (ParseConfigs_inl _ _ _ Hok) as (dir & names & Hdir & _ & Hperm & Hall).
  destruct (GetConfigDir_place _ _ _ Hdir)
    as (homedir & w & Hhome & _ & Hne & _ & _ & Hplace & Hstat).
  rewrite Hplace in Hperm.
  exists homedir. split; [done|]. split.
  { by rewrite <- (Forall2_length _ _ _ Hall), Hperm. }
  intros name node Hname Hnode.
  assert (name ∈ names) as Hin.
  { rewrite Hperm. apply elem_of_entryNames. by exists node. }
  apply list_elem_of_lookup in Hin as [i Hi].
  destruct (Forall2_lookup_l _ _ _ _ _ Hall Hi)
    as (cfg & Hcfg & bytes & Hread & Hbytes).
  rewrite <- Hplace in Hstat, Hnode.
  apply (ReadFile_child _ _ _ w) in Hread; [|done..].
  exists bytes, cfg. split; [congruence|]. split; [done|].
  by apply list_elem_of_lookup_2 in Hcfg.
Qed.

Lemma ParseConfigs_entries_are_configs_witness :
  let h := hostWithConfigs [("a.yml", "db"); ("b.yml", "web")] in
  fst (ParseConfigs unmarshalName h)
  = inl [ {| Name := "db"; Shell := "bash"; Short := ""; Long := "";
             Commands := [] |};
          {| Name := "web"; Shell := "bash"; Short := ""; Long := "";
             Commands := [] |} ]
  ∧ ∃ homedir,
      os.UserHomeDir h = inl homedir
      ∧ 2 = length (ioutil.entryNames
                      (files (snd (ParseConfigs unmarshalName h)))
                      (configPlace h homedir))
      ∧ ∀ name node,
          properElem name →
          files (snd (ParseConfigs unmarshalName h))
            !! (configPlace h homedir ++ [name]) = Some node →
          ∃ bytes cfg,
            node = File bytes ∧ unmarshalName bytes = inl cfg
            ∧ cfg ∈ [ {| Name := "db"; Shell := "bash"; Short := "";
                         Long := ""; Commands := [] |};
                      {| Name := "web"; Shell := "bash"; Short := "";
                         Long := ""; Commands := [] |} ].
Proof.
  intros h.
  assert (fst (ParseConfigs unmarshalName h)
          = inl [ {| Name := "db"; Shell := "bash"; Short := ""; Long := "";
                     Commands := [] |};
                  {| Name := "web"; Shell := "bash"; Short := ""; Long := "";
                     Commands := [] |} ]) as Hok
    by (vm_compute; reflexivity).
  split; [exact Hok|].
  exact (ParseConfigs_entries_are_configs unmarshalName h _ Hok).
Defined.

(** ** The example configurations *)

(** Writing the entry [name] of the config directory that [GetConfigDir]
    has returned. *)
Lemma WriteFile_config_entry h dir h0 filename name data perm :
  GetConfigDir h = ((dir, None), h0) →
  properElem name →
  os.placeOf h0 filename = os.placeOf h0 dir ++ [name] →
  ∃ homedir w,
    os.UserHomeDir h = inl homedir
    ∧ os.Stat (files h0) (configPlace h homedir) = Some (Dir w)
    ∧ match ioutil.WriteFile filename data perm h0 with
      | (h', None) =>
          environ h' = environ h ∧ cwd h' = cwd h
          ∧ files h'
            = <[configPlace h homedir ++ [name] := File data]> (files h0)
          ∧ ((∃ old, files h0 !! (configPlace h homedir ++ [name])
                     = Some (File old))
             ∨ (files h0 !! (configPlace h homedir ++ [name]) = None
                ∧ w = true))
      | (h', Some err) =>
          h' = h0
          ∧ ((∃ w', files h0 !! (configPlace h homedir ++ [name])
                    = Some (Dir w')
                    ∧ err = os.PathError "open" filename "is a directory")
             ∨ (files h0 !! (configPlace h homedir ++ [name]) = None
                ∧ w = false
                ∧ err = os.PathError "open" filename os.EACCES))
      end.
Proof.
  intros Hdir Hname Hfile.
  destruct (GetConfigDir_place _ _ _ Hdir)
    as (homedir & w & Hhome & _ & Hne & Henv & Hcwd & Hplace & Hstat).
  rewrite Hplace in Hfile.
  exists homedir, w. do 2 (split; [done|]).
  pose proof (WriteFile_at h0 filename data perm _ name w Hfile Hstat) as Hw.
  destruct (ioutil.WriteFile filename data perm h0) as [h' [err|]]; [done|].
  destruct Hw as (Henv' & Hcwd' & Hw). split; [congruence|].
  split; [congruence|done].
Qed.


Lemma example_yml_path dir :
  dir +:+ "/example.yml" = dir +:+ "/" +:+ "example.yml".
Proof. done. Qed.


(** ** The example configurations and the start-up *)

Lemma MakeExampleConfigFromStruct_None Marshal h h' :
  MakeExampleConfigFromStruct Marshal h = (None, h') →
  ∃ dir h0 bytes,
    GetConfigDir h = ((dir, None), h0)
    ∧ Marshal exampleConfig = inl bytes
    ∧ ioutil.WriteFile (filepath.Join [dir; "generated-example.yml"])
        bytes os.ModePerm h0 = (h', None).
Proof.
  unfold MakeExampleConfigFromStruct.
  destruct (GetConfigDir h) as [[dir [err|]] h0]; [done|].
  destruct (Marshal exampleConfig) as [bytes|e]; [|done].
  destruct (ioutil.WriteFile _ bytes os.ModePerm h0) as [h1 [err|]] eqn:Hw;
    [done|].
  intros [= <-]. by exists dir, h0, bytes.
Qed.

Lemma MakeExampleConfigFromStructWithInstructions_None h h' :
  MakeExampleConfigFromStructWithInstructions h = (None, h') →
  ∃ dir h0,
    GetConfigDir h = ((dir, None), h0)
    ∧ ioutil.WriteFile (dir +:+ "/" +:+ "example.yml") exampleYml os.ModePerm
        h0 = (h', None).
Proof.
  unfold MakeExampleConfigFromStructWithInstructions.
  destruct (GetConfigDir h) as [[dir [err|]] h0]; [done|].
  rewrite example_yml_path.
  destruct (ioutil.WriteFile _ exampleYml os.ModePerm h0) as [h1 [err|]]
    eqn:Hw; [done|].
  intros [= <-]. by exists dir, h0.
Qed.

(** A file written into the config directory: the host that results has the
    file, [GetConfigDir] returns the same path on it and leaves it as it
    is. *)
Lemma config_entry_written h dir h0 filename name data perm h' :
  GetConfigDir h = ((dir, None), h0) →
  properElem name →
  os.placeOf h0 filename = os.placeOf h0 dir ++ [name] →
  ioutil.WriteFile filename data perm h0 = (h', None) →
  ∃ homedir w,
    os.UserHomeDir h = inl homedir
    ∧ cwd h' = cwd h
    ∧ os.placeOf h' dir = configPlace h homedir
    ∧ os.Stat (files h') (configPlace h homedir) = Some (Dir w)
    ∧ files h' = <[configPlace h homedir ++ [name] := File data]> (files h0)
    ∧ GetConfigDir h' = ((dir, None), h').
Proof.
  intros Hdir Hname Hfile Hwrite.
  destruct (WriteFile_config_entry h dir h0 filename name data perm
              Hdir Hname Hfile) as (homedir & w & Hhome & Hstat & Hw).
  rewrite Hwrite in Hw. destruct Hw as (Henv & Hcwd & Hfiles & _).
  destruct (GetConfigDir_place _ _ _ Hdir)
    as (homedir' & w' & Hhome' & Hjoin & Hne & Henv0 & Hcwd0 & Hplace & _).
  assert (homedir' = homedir) as -> by congruence.
  assert (os.placeOf h' dir = configPlace h homedir) as Hplace'.
  { rewrite <- Hplace. apply placeOf_same_env. congruence. }
  assert (os.Stat (files h') (configPlace h homedir) = Some (Dir w))
    as Hstat'.
  { rewrite Hfiles. by apply Stat_insert_child. }
  exists homedir, w. do 5 (split; [done|]).
  rewrite Hjoin. apply GetConfigDir_existing.
  - by rewrite (UserHomeDir_same_env h h').
  - unfold os.IsDir. rewrite <- Hjoin, Hplace'. by rewrite Hstat'.
Qed.

Lemma ParseConfigs_at Unmarshal h dir :
  GetConfigDir h = ((dir, None), h) →
  ParseConfigs Unmarshal h
  = match ioutil.ReadDir dir h with
    | inr err => (inr (Wrap err "reading from config directory"), h)
    | inl names => (readConfigs Unmarshal dir names h [], h)
    end.
Proof. intros Hdir. unfold ParseConfigs. by rewrite Hdir. Qed.

Lemma entryNames_insert_new fs dir name node :
  fs !! (dir ++ [name]) = None →
  ioutil.entryNames (<[dir ++ [name] := node]> fs) dir
  ≡ₚ name :: ioutil.entryNames fs dir.
Proof.
  intros Hnew. unfold ioutil.entryNames.
  rewrite (map_to_list_insert fs _ node Hnew). simpl.
  rewrite decide_True.
  - by rewrite last_last.
  - split; [by destruct dir|]. by rewrite removelast_last.
Qed.

(** X10.  On a host where [ParseConfigs] finds no configuration,
    [MakeExampleConfigFromStruct] and [ParseConfigs] are a round trip as far
    as the yaml library is one: when [Unmarshal] reads the bytes that
    [Marshal] gave for the example configuration back as that configuration,
    [ParseConfigs] after the call returns exactly the example configuration,
    and [ParseAndAddToRoot] adds its one command to the root and returns. *)
Theorem generated_example_round_trip
    (Marshal : OneTerminalConfig → string + error)
    (Unmarshal : string → OneTerminalConfig + error) (h h' : Host)
    (rootCmd : list cobra.Command) :
  fst (ParseConfigs Unmarshal h) = inl [] →
  MakeExampleConfigFromStruct Marshal h = (None, h') →
  (∀ bytes, Marshal exampleConfig = inl bytes →
            Unmarshal bytes = inl exampleConfig) →
  ParseConfigs Unmarshal h' = (inl [exampleConfig], h')
  ∧ ParseAndAddToRoot Unmarshal h' rootCmd
    = (Returned (rootCmd ++ [cobraCommand exampleConfig]), h').
Proof.
  intros Hempty Hmake Hyaml.
  destruct (MakeExampleConfigFromStruct_None _ _ _ Hmake)
    as (dir & h0 & bytes & Hdir & Hbytes & Hwrite).
  assert (properElem "generated-example.yml") as Hname by by repeat split.
  destruct (GetConfigDir_place _ _ _ Hdir)
    as (homedir & w0 & Hhome & _ & Hne & _ & Hcwd0 & Hplace0 & Hstat0).
  destruct (config_entry_written h dir h0 _ _ bytes os.ModePerm h'
              Hdir Hname (placeOf_Join h0 dir _ Hne Hname) Hwrite)
    as (homedir' & w & Hhome' & _ & Hplace & Hstat & Hfiles & Hdir').
  assert (homedir' = homedir) as -> by congruence.
  (* the directory was empty *)
  destruct (ParseConfigs_inl _ _ _ Hempty)
    as (dir0 & names & Hdir0 & _ & Hperm & Hall).
  rewrite ParseConfigs_host, Hdir in Hdir0, Hperm. simpl in Hdir0, Hperm.
  assert (dir0 = dir) as -> by congruence.
  apply Forall2_nil_inv_r in Hall as ->.
  rewrite Hplace0 in Hperm. symmetry in Hperm.
  apply Permutation_nil_r in Hperm.
  assert (files h0 !! (configPlace h homedir ++ ["generated-example.yml"])
          = None) as Hnew.
  { destruct (files h0 !! _) as [node|] eqn:Hnode; [|done].
    assert ("generated-example.yml"
            ∈ ioutil.entryNames (files h0) (configPlace h homedir)) as Hin
      by (apply elem_of_entryNames; by exists node).
    rewrite Hperm in Hin. by apply elem_of_nil in Hin. }
  (* the directory now has the one file *)
  assert (ioutil.ReadDir dir h' = inl ["generated-example.yml"]) as Hread.
  { unfold ioutil.ReadDir. rewrite Hplace, Hstat. f_equal.
    apply Permutation_singleton_r.
    rewrite merge_sort_Permutation, Hfiles.
    by rewrite (entryNames_insert_new _ _ _ _ Hnew), Hperm. }
  assert (ioutil.ReadFile (dir +:+ "/" +:+ "generated-example.yml") h'
          = inl bytes) as Hfile.
  { rewrite <- Hplace in Hstat.
    apply (ReadFile_child _ _ _ w); [done..|].
    by rewrite Hplace, Hfiles, lookup_insert_eq. }
  assert (ParseConfigs Unmarshal h' = (inl [exampleConfig], h')) as Hparse.
  { rewrite (ParseConfigs_at _ _ _ Hdir'), Hread. simpl.
    by rewrite Hfile, (Hyaml _ Hbytes). }
  split; [done|].
  unfold ParseAndAddToRoot. by rewrite Hparse.
Qed.

Lemma generated_example_round_trip_witness :
  fst (ParseConfigs unmarshalExample sampleHost) = inl []
  ∧ fst (MakeExampleConfigFromStruct marshalName sampleHost) = None
  ∧ ParseConfigs unmarshalExample
      (snd (MakeExampleConfigFromStruct marshalName sampleHost))
    = (inl [exampleConfig],
       snd (MakeExampleConfigFromStruct marshalName sampleHost))
  ∧ ParseAndAddToRoot unmarshalExample
      (snd (MakeExampleConfigFromStruct marshalName sampleHost)) []
    = (Returned [cobraCommand exampleConfig],
       snd (MakeExampleConfigFromStruct marshalName sampleHost)).
Proof.
  assert (fst (ParseConfigs unmarshalExample sampleHost) = inl []) as Hempty
    by (vm_compute; reflexivity).
  assert (fst (MakeExampleConfigFromStruct marshalName sampleHost) = None)
    as Hnone by (vm_compute; reflexivity).
  split; [exact Hempty|]. split; [exact Hnone|].
  apply (generated_example_round_trip marshalName unmarshalExample
           sampleHost _ [] Hempty).
  - destruct (MakeExampleConfigFromStruct marshalName sampleHost) as [e h1].
    simpl in Hnone. by rewrite Hnone.
  - by intros bytes [= <-].
Defined.

(** X11.  The two example generators write configurations with the same
    command name.  After both have run with success, in this order, the
    config directory has both files, and when the yaml library reads the
    name [somename] from each of them the next [ParseAndAddToRoot] cannot
    return: it panics, whatever else the directory holds, and leaves the
    host as it is. *)
Theorem both_examples_make_ParseAndAddToRoot_panic
    (Marshal : OneTerminalConfig → string + error)
    (Unmarshal : string → OneTerminalConfig + error) (h h1 h2 : Host)
    (rootCmd : list cobra.Command) :
  MakeExampleConfigFromStruct Marshal h = (None, h1) →
  MakeExampleConfigFromStructWithInstructions h1 = (None, h2) →
  (∀ bytes cfg, Marshal exampleConfig = inl bytes →
                Unmarshal bytes = inl cfg → Name cfg = "somename") →
  (∀ cfg, Unmarshal exampleYml = inl cfg → Name cfg = "somename") →
  panics (fst (ParseAndAddToRoot Unmarshal h2 rootCmd))
  ∧ snd (ParseAndAddToRoot Unmarshal h2 rootCmd) = h2.
Proof.
  intros Hmake1 Hmake2 Hname1 Hname2.
  destruct (MakeExampleConfigFromStruct_None _ _ _ Hmake1)
    as (dir & h0 & bytes & Hdir & Hbytes & Hwrite1).
  assert (properElem "generated-example.yml") as Hg by by repeat split.
  assert (properElem "example.yml") as He by by repeat split.
  destruct (GetConfigDir_place _ _ _ Hdir)
    as (homedir & w0 & Hhome & _ & Hne & Henv0 & Hcwd0 & Hplace0 & Hstat0).
  destruct (config_entry_written h dir h0 _ _ bytes os.ModePerm h1
              Hdir Hg (placeOf_Join h0 dir _ Hne Hg) Hwrite1)
    as (homedir' & w1 & Hhome' & _ & Hplace1 & Hstat1 & Hfiles1 & Hdir1).
  assert (homedir' = homedir) as -> by congruence.
  destruct (MakeExampleConfigFromStructWithInstructions_None _ _ Hmake2)
    as (dir' & h1' & Hdir1' & Hwrite2).
  assert (dir' = dir ∧ h1' = h1) as [-> ->] by (split; congruence).
  rewrite <- Hplace1 in Hstat1.
  destruct (config_entry_written h1 dir h1 _ _ exampleYml os.ModePerm h2
              Hdir1 He (proj1 (Stat_child h1 dir _ w1 Hne He Hstat1)) Hwrite2)
    as (homedir1 & w2 & Hhome1 & Hcwd2 & Hplace2 & Hstat2 & Hfiles2 & Hdir2).
  assert (configPlace h1 homedir1 = configPlace h homedir) as HK.
  { rewrite <- Hplace2, <- Hplace1. by apply placeOf_same_env. }
  rewrite HK in Hplace2, Hstat2, Hfiles2. clear HK.
  set (K := configPlace h homedir) in *.
  assert (files h2 !! (K ++ ["generated-example.yml"]) = Some (File bytes))
    as Hentry1.
  { rewrite Hfiles2, lookup_insert_ne, Hfiles1, lookup_insert_eq; [done|].
    intros Heq%(inj (app K)). done. }
  assert (files h2 !! (K ++ ["example.yml"]) = Some (File exampleYml))
    as Hentry2 by by rewrite Hfiles2, lookup_insert_eq.
  split; [|by rewrite ParseAndAddToRoot_host, Hdir2].
  unfold ParseAndAddToRoot.
  destruct (ParseConfigs Unmarshal h2) as [[cmdConfigs|err] h3] eqn:Hparse;
    [|by eexists _, _].
  simpl.
  destruct (registerConfigs_total cmdConfigs ∅ rootCmd)
    as [[r Hr]|(message & r & Hr)]; [|by exists message, r].
  exfalso.
  apply registerConfigs_Returned in Hr as (_ & Hnodup & _).
  assert (fst (ParseConfigs Unmarshal h2) = inl cmdConfigs) as Hok
    by by rewrite Hparse.
  destruct (ParseConfigs_inl _ _ _ Hok)
    as (dir2 & names & Hdir2' & _ & Hperm & Hall).
  rewrite ParseConfigs_host, Hdir2 in Hdir2', Hperm, Hall.
  simpl in Hdir2', Hperm, Hall.
  assert (dir2 = dir) as -> by congruence.
  rewrite Hplace2 in Hperm.
  assert (∀ name data,
            properElem name →
            files h2 !! (K ++ [name]) = Some (File data) →
            ∃ i cfg, names !! i = Some name ∧ cmdConfigs !! i = Some cfg
                     ∧ Unmarshal data = inl cfg) as Hfind.
  { intros name data Hname Hentry.
    assert (name ∈ names) as Hin.
    { rewrite Hperm. apply elem_of_entryNames. by eexists. }
    apply list_elem_of_lookup in Hin as [i Hi].
    destruct (Forall2_lookup_l _ _ _ _ _ Hall Hi)
      as (cfg & Hcfg & data' & Hread & Hdata).
    rewrite <- Hplace2 in Hstat2, Hentry.
    apply (ReadFile_child _ _ _ w2) in Hread; [|done..].
    exists i, cfg. do 2 (split; [done|]). congruence. }
  destruct (Hfind _ _ Hg Hentry1) as (i & cfg1 & Hi & Hcfg1 & Hyaml1).
  destruct (Hfind _ _ He Hentry2) as (j & cfg2 & Hj & Hcfg2 & Hyaml2).
  assert (i = j) as ->.
  { apply (NoDup_lookup _ i j "somename" Hnodup).
    - by rewrite list_lookup_fmap, Hcfg1; simpl;
        rewrite (Hname1 _ _ Hbytes Hyaml1).
    - by rewrite list_lookup_fmap, Hcfg2; simpl; rewrite (Hname2 _ Hyaml2). }
  congruence.
Qed.

Lemma both_examples_make_ParseAndAddToRoot_panic_witness :
  fst (MakeExampleConfigFromStruct marshalName sampleHost) = None
  ∧ fst (MakeExampleConfigFromStructWithInstructions
           (snd (MakeExampleConfigFromStruct marshalName sampleHost))) = None
  ∧ panics (fst (ParseAndAddToRoot unmarshalExample
                   (snd (MakeExampleConfigFromStructWithInstructions
                           (snd (MakeExampleConfigFromStruct marshalName
                                   sampleHost)))) []))
  ∧ snd (ParseAndAddToRoot unmarshalExample
           (snd (MakeExampleConfigFromStructWithInstructions
                   (snd (MakeExampleConfigFromStruct marshalName
                           sampleHost)))) [])
    = snd (MakeExampleConfigFromStructWithInstructions
             (snd (MakeExampleConfigFromStruct marshalName sampleHost))).
Proof.
  assert (fst (MakeExampleConfigFromStruct marshalName sampleHost) = None)
    as H1 by (vm_compute; reflexivity).
  assert (fst (MakeExampleConfigFromStructWithInstructions
                 (snd (MakeExampleConfigFromStruct marshalName sampleHost)))
          = None) as H2 by (vm_compute; reflexivity).
  split; [exact H1|]. split; [exact H2|].
  apply (both_examples_make_ParseAndAddToRoot_panic marshalName
           unmarshalExample sampleHost
           (snd (MakeExampleConfigFromStruct marshalName sampleHost))).
  - destruct (MakeExampleConfigFromStruct marshalName sampleHost) as [e h1].
    simpl in H1. by rewrite H1.
  - destruct (MakeExampleConfigFromStructWithInstructions _) as [e h2].
    simpl in H2. by rewrite H2.
  - intros bytes cfg [= <-]. by intros [= <-].
  - by intros cfg [= <-].
Defined.

(** X12.  The path that [GetConfigDir] returns is not empty and names the
    place two steps below the place of the home directory, [.config] and
    then [oneterminal], however [$HOME] spells that directory (with doubled
    or trailing separators, with [.] and [..], relative to the working
    directory); a directory is at that place when the call has returned, and
    the entry [name] of the config directory is at the place one step
    further, both for the path that [ParseConfigs] formats with a separator
    and for the path that [filepath.Join] makes. *)
Theorem GetConfigDir_names_config_place (h h' : Host) (dir : string) :
  GetConfigDir h = ((dir, None), h') →
  ∃ homedir w,
    os.UserHomeDir h = inl homedir
    ∧ dir ≠ ""
    ∧ os.placeOf h' dir = os.placeOf h homedir ++ [".config"; "oneterminal"]
    ∧ files h' !! (os.placeOf h homedir ++ [".config"; "oneterminal"])
      = Some (Dir w)
    ∧ ∀ name,
        properElem name →
        os.placeOf h' (dir +:+ "/" +:+ name)
        = os.placeOf h homedir ++ [".config"; "oneterminal"; name]
        ∧ os.placeOf h' (filepath.Join [dir; name])
          = os.placeOf h homedir ++ [".config"; "oneterminal"; name].
Proof.
  intros Hdir.
  destruct (GetConfigDir_place _ _ _ Hdir)
    as (homedir & w & Hhome & _ & Hne & _ & _ & Hplace & Hstat).
  unfold configPlace in *.
  exists homedir, w. do 3 (split; [done|]).
  split; [by apply walk_Some in Hstat|].
  intros name Hname.
  rewrite placeOf_child, placeOf_Join, Hplace by done.
  by rewrite <- !app_assoc.
Qed.

Lemma GetConfigDir_names_config_place_witness :
  let h := {| environ := <["HOME" := "/home//./x/../u/"]> ∅;
              cwd := [];
              files := files sampleHost |} in
  GetConfigDir h
  = (("/home/u/.config/oneterminal", None), snd (GetConfigDir h))
  ∧ ∃ homedir w,
      os.UserHomeDir h = inl homedir
      ∧ "/home/u/.config/oneterminal" ≠ ""
      ∧ os.placeOf (snd (GetConfigDir h)) "/home/u/.config/oneterminal"
        = os.placeOf h homedir ++ [".config"; "oneterminal"]
      ∧ files (snd (GetConfigDir h))
          !! (os.placeOf h homedir ++ [".config"; "oneterminal"])
        = Some (Dir w)
      ∧ ∀ name,
          properElem name →
          os.placeOf (snd (GetConfigDir h))
            ("/home/u/.config/oneterminal" +:+ "/" +:+ name)
          = os.placeOf h homedir ++ [".config"; "oneterminal"; name]
          ∧ os.placeOf (snd (GetConfigDir h))
              (filepath.Join ["/home/u/.config/oneterminal"; name])
            = os.placeOf h homedir ++ [".config"; "oneterminal"; name].
Proof.
  intros h.
  assert (fst (GetConfigDir h) = ("/home/u/.config/oneterminal", None))
    as Hfst by (vm_compute; reflexivity).
  assert (GetConfigDir h
          = (("/home/u/.config/oneterminal", None), snd (GetConfigDir h)))
    as Hdir.
  { destruct (GetConfigDir h) as [r h1]. simpl in Hfst. by rewrite Hfst. }
  split; [exact Hdir|].
  exact (GetConfigDir_names_config_place h _ _ Hdir).
Defined.
